(** * opentelemetry-trace-codelab-go: the match-count server and its load generator

    A shallow embedding of
    - [step6/src/server/main.go]: [readFiles] (fan-out retrieval over one
      goroutine per object) and [GetMatchCount] (the line-counting loop);
    - [step0/src/loadgen/main.go]: [runQuery], [run] (the worker pool behind
      a buffered channel used as a semaphore) and the ticker loop of [main].

    Goroutines and channels are modelled by explicit schedules: an
    execution is driven by a list of events naming which goroutine moves
    next, and the functions below compute the state that schedule leads to.
    Library calls (regexp, strings.ToLower, the storage client, net/http,
    encoding/json) are inputs of the model. *)

From Stdlib Require Import ZArith Lia Ascii String.
From stdpp Require Import base list strings.

(** ** Go values shared by both programs *)
Module Go.

(** A Go [error] is represented by its message; a value of static type
    [error] that may be nil is an [option error]. *)
Definition error : Type := string.

(** [fmt.Errorf(prefix + "%v", err)]: never nil. *)
Definition Errorf (prefix : string) (err : error) : error := prefix +:+ err.

(** What a call does under a given schedule: it returns, it panics (an
    unrecovered panic in any goroutine ends the process), or the schedule
    ends while the caller is still blocked. *)
Inductive outcome (A : Type) : Type :=
| Returns (a : A)
| Panics (msg : string)
| Blocked.
Global Arguments Returns {A} a.
Global Arguments Panics {A} msg.
Global Arguments Blocked {A}.

(** Two's complement wrap-around of [int64] (and of [int] on the 64-bit
    targets the manifests build for). *)
Definition wrap64 (z : Z) : Z := ((z + 2 ^ 63) mod 2 ^ 64 - 2 ^ 63)%Z.

(** [n] times [count++] on an [int64]. *)
Definition increments (n : nat) (count : Z) : Z :=
  Nat.iter n (fun count => wrap64 (count + 1)) count.

(** [strings.Split(s, sep)] for a one-byte separator: the pieces between
    the separators, so [n] separators give [n + 1] pieces and a string
    without separator is its own single piece. *)
Fixpoint Split (s : string) (sep : ascii) : list string :=
  match s with
  | EmptyString => [EmptyString]
  | String c s' =>
      if Ascii.eqb c sep then EmptyString :: Split s' sep
      else match Split s' sep with
           | piece :: pieces => String c piece :: pieces
           | [] => [String c EmptyString]
           end
  end.

(** The parts of the Go standard library that the server calls and whose
    code is not part of the repository. *)
Class Library : Type := {
  (** a compiled pattern, [regexp.Regexp] *)
  Regexp : Type;
  (** [regexp.Compile]: the compiled pattern, or the parse error. *)
  Compile : string -> error + Regexp;
  (** [MatchString] of a compiled pattern: does the string contain any match. *)
  MatchString : Regexp -> string -> bool;
  (** [strings.ToLower] *)
  ToLower : string -> string;
  (** how [regexp.MustCompile] quotes the pattern in the text of its
      panic: between backquotes when [strconv.CanBackquote] allows it, with
      [strconv.Quote] otherwise *)
  quote : string -> string;
}.

End Go.

(** ** step6/src/server/main.go *)
Module Server.
Import Go.

(** [shakesapp.ShakespeareRequest] and [shakesapp.ShakespeareResponse]
    (generated code; [MatchCount] is an [int64]). *)
Record ShakespeareRequest : Type := { Query : string }.
Record ShakespeareResponse : Type := { MatchCount : Z }.

(** The local type [resp] of [readFiles]. *)
Record resp : Type := { s : string; err : option error }.

(** What the object store answers to one goroutine of [readFiles]:
    [obj.NewReader] fails, or it succeeds and [ioutil.ReadAll] returns the
    bytes read so far together with its (possibly nil) error. *)
Inductive fetch : Type :=
| NewReaderFails (e : error)
| ReadAllReturns (data : string) (e : option error).

(** The object store as one call of [readFiles] sees it. *)
Record storage : Type := {
  (** the error of [storage.NewClient] *)
  NewClient : option error;
  (** the successive results of [it.Next()]: object names ([attrs.Name])
      or an error; the end of the list is [iterator.Done] *)
  Objects : list (error + string);
  (** the fate of the fetch of each object *)
  Object : string -> fetch;
}.

(** The listing loop: collects the non-empty names until [iterator.Done],
    gives up on the first error. *)
Fixpoint list_objects (it : list (error + string)) (paths : list string)
  : error + list string :=
  match it with
  | [] => inr paths
  | inl e :: _ => inl e
  | inr name :: it' =>
      list_objects it' (if String.eqb name EmptyString then paths else paths ++ [name])
  end.

(** What one goroutine still has to do. *)
Inductive action : Type :=
| Send (r : resp)
| Panic.

(** The goroutine body. When [NewReader] fails the error is sent and,
    there being no [return], the body goes on to [ioutil.ReadAll(r)] with
    the nil reader, which dereferences it. The panic ends the process
    whenever it comes; [receive] below tells what [readFiles] itself does,
    so it shows the panic only when it comes before the loop has ended. *)
Definition fetch_task (f : fetch) : list action :=
  match f with
  | NewReaderFails e => [Send {| s := EmptyString; err := Some e |}; Panic]
  | ReadAllReturns data e => [Send {| s := data; err := e |}]
  end.

(** The receive loop [for i := 0; i < len(paths); i++ { r := <-resps ... }].
    [resps] is unbuffered, so a goroutine sends exactly when the loop
    receives; [order] names the goroutine that moves next. [n] is
    [len(paths)], [tasks] what each goroutine has left to do. *)
Fixpoint receive (order : list nat) (tasks : list (list action)) (n i : nat)
    (ret : list string) (err0 : option error)
  : outcome (list string * option error) :=
  if n <=? i then Returns (ret, err0)
  else match order with
       | [] => Blocked
       | k :: order' =>
           match tasks !! k with
           | Some (Send r :: rest) =>
               receive order' (<[k := rest]> tasks) n (S i)
                 (<[i := s r]> ret)
                 (match err r with Some e => Some e | None => err0 end)
           | Some (Panic :: _) =>
               Panics "runtime error: invalid memory address or nil pointer dereference"
           | _ => Blocked
           end
       end.

Definition readFiles (st : storage) (bucketName prefix : string)
    (order : list nat) : outcome (list string * option error) :=
  match NewClient st with
  | Some e => Returns ([], Some (Errorf "failed to create storage client: " e))
  | None =>
      match list_objects (Objects st) [] with
      | inl e =>
          Returns ([], Some (Errorf
            ("failed to iterate over files in " +:+ bucketName
             +:+ " starting with " +:+ prefix +:+ ": ") e))
      | inr paths =>
          receive order ((fun path => fetch_task (Object st path)) <$> paths)
            (length paths) 0 (replicate (length paths) EmptyString) None
      end
  end.

(** What a fetch leaves in its slot of [ret], and the error it reports. *)
Definition slot (f : fetch) : string :=
  match f with
  | NewReaderFails _ => EmptyString
  | ReadAllReturns data _ => data
  end.

Definition failure (f : fetch) : option error :=
  match f with
  | NewReaderFails e => Some e
  | ReadAllReturns _ e => e
  end.

Definition answer (f : fetch) : resp := {| s := slot f; err := failure f |}.

(** The documents that were fetched without error, in listing order. *)
Definition fetched (st : storage) (paths : list string) : list string :=
  omap (fun path =>
          match Object st path with
          | ReadAllReturns data None => Some data
          | _ => None
          end) paths.

(** The message a goroutine sends next, if it is about to send. *)
Definition first_send (task : list action) : resp :=
  match task with
  | Send r :: _ => r
  | _ => {| s := EmptyString; err := None |}
  end.

(** The message that goroutine [k] is about to send. *)
Definition sent_by (tasks : list (list action)) (k : nat) : resp :=
  first_send (default [] (tasks !! k)).

(** A goroutine that has at most one message left to send. *)
Definition sends_once (task : list action) : bool :=
  match task with
  | Send _ :: Send _ :: _ => false
  | _ => true
  end.

(** The error variable of [readFiles] after the messages [rs] arrived in
    that order: the last error seen wins. *)
Definition last_error (rs : list resp) (err0 : option error) : option error :=
  fold_left (fun err0 r => match err r with Some e => Some e | None => err0 end)
            rs err0.

Definition bucketName : string := "dataflow-samples".
Definition bucketPrefix : string := "shakespeare/".

Section Counting.
Context `{Library}.

(** The inner loop over the lines of one document, [count] being
    [resp.MatchCount]. *)
Definition count_lines (re : Regexp) (count : Z) (text : string) : Z :=
  fold_left
    (fun count line =>
       let line := ToLower line in
       let isMatch := MatchString re line in
       if isMatch then wrap64 (count + 1) else count)
    (Split text "010"%char) count.

(** The outer loop over the documents. *)
Definition count_texts (re : Regexp) (texts : list string) (count : Z) : Z :=
  fold_left (count_lines re) texts count.

Definition GetMatchCount (st : storage) (order : list nat)
    (req : ShakespeareRequest)
  : outcome (ShakespeareResponse * option error) :=
  let resp := {| MatchCount := 0 |} in
  match readFiles st bucketName bucketPrefix order with
  | Returns (_, Some e) => Returns (resp, Some (Errorf "fails to read files: " e))
  | Returns (texts, None) =>
      let query := ToLower (Query req) in
      match Compile query with
      | inl e => Panics ("regexp: Compile(" +:+ quote query +:+ "): " +:+ e)
      | inr re =>
          Returns ({| MatchCount := count_texts re texts (MatchCount resp) |}, None)
      end
  | Panics msg => Panics msg
  | Blocked => Blocked
  end.

(** The count that the specification words: the number of lines, over
    all documents, whose lower-cased text the matcher of the lower-cased
    pattern finds a match in. *)
Definition matching_lines (re : Regexp) (text : string) : nat :=
  length (filter (fun line => MatchString re (ToLower line) = true)
                 (Split text "010"%char)).

Definition spec_count (re : Regexp) (corpus : list string) : nat :=
  sum_list_with (matching_lines re) corpus.

End Counting.

(** A listing entry that the listing loop does not skip: an error, or a
    name that is not empty. *)
Definition named (item : error + string) : bool :=
  match item with
  | inl _ => true
  | inr name => negb (String.eqb name EmptyString)
  end.

(** The same store with another listing. *)
Definition with_objects (st : storage) (it : list (error + string)) : storage :=
  {| NewClient := NewClient st; Objects := it; Object := Object st |}.

(** The fetch of the [k]-th listed object. *)
Definition fetch_at (st : storage) (paths : list string) (k : nat) : fetch :=
  Object st (default EmptyString (paths !! k)).

(** The number of newline bytes of a document. *)
Fixpoint newlines (text : string) : nat :=
  match text with
  | EmptyString => 0
  | String c text' => (if Ascii.eqb c "010"%char then 1 else 0) + newlines text'
  end.

End Server.

(** ** step0/src/loadgen/main.go *)
Module Loadgen.
Import Go.

Record query : Type := { query_string : string; wantCount : Z }.

(** The table of [config.go]. *)
Definition testCases : list query :=
  [ {| query_string := "love"; wantCount := 3040 |};
    {| query_string := "friend"; wantCount := 1036 |};
    {| query_string := "hello"; wantCount := 349 |};
    {| query_string := "world"; wantCount := 728 |};
    {| query_string := "sweet"; wantCount := 958 |};
    {| query_string := "tear"; wantCount := 463 |};
    {| query_string := "faith"; wantCount := 484 |};
    {| query_string := "to be, or not to be"; wantCount := 1 |};
    {| query_string := "what's past is prologue"; wantCount := 1 |};
    {| query_string := "insolence"; wantCount := 14 |} ].

(** The anonymous struct that [runQuery] decodes the body into. *)
Record reply : Type := { Matched : Z }.

(** The client service as one call of [runQuery] meets it. *)
Record network : Type := {
  (** [reqURL.String()] once [RawQuery] encodes [q=s] *)
  request_url : string -> string;
  (** [http.Get]: an error, or a response *)
  Get : string -> error + string;
  (** [io.ReadAll(resp.Body)]: an error, or the bytes of the body *)
  ReadAll : string -> error + string;
  (** [json.Unmarshal(data, &r)]: the struct as it leaves it, and its error *)
  Unmarshal : string -> reply -> reply * option error;
}.

Definition runQuery (net : network) (s : string) : Z * option error :=
  let url := request_url net s in
  match Get net url with
  | inl e =>
      ((-1)%Z, Some (Errorf ("error sending request to " +:+ url +:+ ": ") e))
  | inr resp =>
      match ReadAll net resp with
      | inl e => ((-1)%Z, Some (Errorf "error reading response body: " e))
      | inr data =>
          let r := {| Matched := 0 |} in
          match Unmarshal net data r with
          | (_, Some e) => ((-1)%Z, Some e)
          | (r, None) => (Matched r, None)
          end
      end
  end.

(** [check] only logs; the result tells which of its two lines. *)
Definition check (q : query) (matched : Z) : bool :=
  negb (wantCount q =? matched)%Z.

(** What the [k]-th goroutine of a batch draws from [rand.Intn] and meets
    on the network. *)
Record world : Type := {
  Intn : nat -> nat;
  net_of : nat -> network;
}.

(** The function literal whose result a worker sends on [respErrCh]. *)
Definition task (w : world) (k : nat) : option error :=
  let q := default {| query_string := EmptyString; wantCount := 0 |}
             (testCases !! (Intn w k `mod` length testCases)) in
  let '(matched, err) := runQuery (net_of w k) (query_string q) in
  match err with
  | Some e => Some e
  | None => let _ := check q matched in None
  end.

(** Where a worker goroutine stands. *)
Inductive worker : Type :=
| Acquiring                    (* at [concCh <- true] *)
| Querying                     (* permit held, inside the function literal *)
| Reporting (e : option error) (* permit held, at [respErrCh <- e] *)
| Releasing                    (* permit held, at the deferred [<-concCh] *)
| Exited.

(** Where the goroutine that called [run] stands. *)
Inductive caller : Type :=
| Launching (n : Z)            (* first loop, [n] goroutines started *)
| Receiving (i : Z)            (* second loop, at [<-respErrCh] *)
| Returned (e : option error).

Record state : Type := {
  pc : caller;
  goroutines : list worker;
  (** [len(concCh)], the number of values in the buffered channel *)
  concCh : nat;
  (** the values received on [respErrCh] so far, oldest first *)
  received : list (option error);
}.

Definition init : state :=
  {| pc := Launching 0; goroutines := []; concCh := 0; received := [] |}.

(** A schedule names, move by move, the goroutine that moves. *)
Inductive event : Type :=
| Caller
| Worker (k : nat).

Definition holds_permit (g : worker) : bool :=
  match g with
  | Querying | Reporting _ | Releasing => true
  | Acquiring | Exited => false
  end.

Definition in_flight (g : worker) : bool :=
  match g with Querying => true | _ => false end.

Definition reported (g : worker) : bool :=
  match g with Releasing | Exited => true | _ => false end.

Definition acquiring (g : worker) : bool :=
  match g with Acquiring => true | _ => false end.

(** The number of goroutines in a given situation. *)
Definition count (P : worker -> bool) (gs : list worker) : nat :=
  length (filter (fun g => P g = true) gs).

Definition permits_held (st : state) : nat :=
  count holds_permit (goroutines st).

(** The moves a worker has left before it exits. *)
Definition worker_moves (g : worker) : nat :=
  match g with
  | Acquiring => 4
  | Querying => 3
  | Reporting _ => 2
  | Releasing => 1
  | Exited => 0
  end.

Section Run.
Variable w : world.
Variable workers : Z.
(** the capacity of [concCh] *)
Variable capacity : nat.

Definition set_worker (k : nat) (g : worker) (st : state) : state :=
  {| pc := pc st; goroutines := <[k := g]> (goroutines st);
     concCh := concCh st; received := received st |}.

(** One move. [None]: that goroutine cannot move in that state (it is
    blocked on a channel, has finished, or was never started).
    [respErrCh] is unbuffered: a worker's send and the caller's receive
    are one move, taken when both stand at the channel. *)
Definition step (ev : event) (st : state) : option state :=
  match ev with
  | Caller =>
      match pc st with
      | Launching n =>
          if (n <? workers)%Z then
            Some {| pc := Launching (n + 1);
                    goroutines := goroutines st ++ [Acquiring];
                    concCh := concCh st; received := received st |}
          else
            Some {| pc := Receiving 0; goroutines := goroutines st;
                    concCh := concCh st; received := received st |}
      | Receiving i =>
          if (i <? workers)%Z then None
          else Some {| pc := Returned None; goroutines := goroutines st;
                       concCh := concCh st; received := received st |}
      | Returned _ => None
      end
  | Worker k =>
      match goroutines st !! k with
      | Some Acquiring =>
          if concCh st <? capacity then
            Some {| pc := pc st; goroutines := <[k := Querying]> (goroutines st);
                    concCh := S (concCh st); received := received st |}
          else None
      | Some Querying => Some (set_worker k (Reporting (task w k)) st)
      | Some (Reporting e) =>
          match pc st with
          | Receiving i =>
              if (i <? workers)%Z then
                Some {| pc := match e with
                              | Some _ => Returned e
                              | None => Receiving (i + 1)
                              end;
                        goroutines := <[k := Releasing]> (goroutines st);
                        concCh := concCh st;
                        received := received st ++ [e] |}
              else None
          | _ => None
          end
      | Some Releasing =>
          match concCh st with
          | S c =>
              Some {| pc := pc st; goroutines := <[k := Exited]> (goroutines st);
                      concCh := c; received := received st |}
          | O => None
          end
      | Some Exited | None => None
      end
  end.

Fixpoint exec (sched : list event) (st : state) : option state :=
  match sched with
  | [] => Some st
  | ev :: sched' =>
      match step ev st with
      | Some st' => exec sched' st'
      | None => None
      end
  end.

Definition reachable (st : state) : Prop :=
  exists sched, exec sched init = Some st.

(** No goroutine can move any more. *)
Definition stuck (st : state) : Prop :=
  forall ev, step ev st = None.

(** What the caller knows at each point of [run]. *)
Definition caller_view (st : state) : Prop :=
  Z.of_nat (length (goroutines st))
  = match pc st with Launching n => n | _ => Z.max 0 workers end
  /\ match pc st with
     | Launching n => (0 <= n <= Z.max 0 workers)%Z /\ received st = []
     | Receiving i =>
         Z.of_nat (length (received st)) = i /\ Forall (eq None) (received st)
     | Returned None =>
         Z.of_nat (length (received st)) = Z.max 0 workers
         /\ Forall (eq None) (received st)
     | Returned (Some e) =>
         exists pre,
           received st = pre ++ [Some e] /\ Forall (eq None) pre
           /\ (Z.of_nat (length pre) < workers)%Z
     end.

(** What holds of every state that [run] can be in. *)
Record invariant (st : state) : Prop := {
  inv_permits : count holds_permit (goroutines st) = concCh st;
  inv_capacity : concCh st <= capacity;
  inv_reported : count reported (goroutines st) = length (received st);
  inv_reporting :
    forall k e, goroutines st !! k = Some (Reporting e) -> e = task w k;
  inv_received :
    Forall (fun e => exists k, k < length (goroutines st) /\ e = task w k)
           (received st);
  inv_caller : caller_view st;
}.

(** Has the [k]-th goroutine got its report through to the caller. *)
Definition has_reported (gs : list worker) (k : nat) : bool :=
  match gs !! k with
  | Some g => reported g
  | None => false
  end.

(** The values received are the results of the tasks of the workers that
    have reported, each once, in the order of their reports. *)
Definition reports_tied (st : state) : Prop :=
  exists ks,
    NoDup ks /\ received st = task w <$> ks
    /\ forall k, k ∈ ks <-> has_reported (goroutines st) k = true.

(** A bound on the number of moves that are left. *)
Definition caller_moves (c : caller) : nat :=
  match c with
  | Launching n => 2 + 5 * Z.to_nat (workers - n)
  | Receiving _ => 1
  | Returned _ => 0
  end.

Definition moves_left (st : state) : nat :=
  caller_moves (pc st) + sum_list_with worker_moves (goroutines st).

(** A scheduler: the caller while it can move, otherwise the first worker
    that holds a permit, otherwise the first that waits for one. *)
Definition pick (st : state) : option event :=
  match pc st with
  | Launching _ => Some Caller
  | Receiving i =>
      if (i <? workers)%Z then
        match list_find (fun g => holds_permit g = true) (goroutines st) with
        | Some (k, _) => Some (Worker k)
        | None =>
            match list_find (fun g => acquiring g = true) (goroutines st) with
            | Some (k, _) => Some (Worker k)
            | None => None
            end
        end
      else Some Caller
  | Returned _ => None
  end.

(** The schedule that [pick] makes from [st], at most [fuel] moves long. *)
Fixpoint drive (fuel : nat) (st : state) : list event :=
  match fuel with
  | O => []
  | S fuel' =>
      match pick st with
      | Some ev =>
          match step ev st with
          | Some st' => ev :: drive fuel' st'
          | None => []
          end
      | None => []
      end
  end.

End Run.

(** [run(workers, concurrency)] under a schedule. [make(chan bool, n)]
    panics for a negative [n]. *)
Definition run (w : world) (workers concurrency : Z) (sched : list event)
  : outcome (option error) :=
  if (concurrency <? 0)%Z then Panics "makechan: size out of range"
  else match exec w workers (Z.to_nat concurrency) sched init with
       | Some st =>
           match pc st with
           | Returned e => Returns e
           | _ => Blocked
           end
       | None => Blocked
       end.

(** The test case that the [k]-th goroutine draws. *)
Definition drawn (w : world) (k : nat) : query :=
  default {| query_string := EmptyString; wantCount := 0 |}
    (testCases !! (Intn w k `mod` length testCases)).

Definition reporting (g : worker) : bool :=
  match g with Reporting _ => true | _ => false end.

Definition exited (g : worker) : bool :=
  match g with Exited => true | _ => false end.

(** The loop of [main] after [ticks] ticks of the ticker, every call of
    [run] having returned: the rounds logged so far, and whether the loop
    was left. The error of [run] is logged only. *)
Fixpoint ticker_loop (numRounds : Z) (ticks : nat) (i : Z) (rounds : list Z)
  : list Z * bool :=
  match ticks with
  | O => (rounds, false)
  | S ticks' =>
      let rounds := rounds ++ [i] in
      if negb (numRounds =? 0)%Z && (i >? numRounds)%Z then (rounds, true)
      else ticker_loop numRounds ticks' (wrap64 (i + 1)) rounds
  end.

Definition main (numRounds : Z) (ticks : nat) : list Z * bool :=
  ticker_loop numRounds ticks 0 [].

End Loadgen.

(** ** Concrete libraries, stores and worlds used to run the models *)
Module Fixtures.
Import Go Server Loadgen.

(** [strings.ToLower] on ASCII text. *)
Definition lower_byte (c : ascii) : ascii :=
  let n := nat_of_ascii c in
  if (65 <=? n) && (n <=? 90) then ascii_of_nat (n + 32) else c.

Fixpoint lower (text : string) : string :=
  match text with
  | EmptyString => EmptyString
  | String c text' => String (lower_byte c) (lower text')
  end.

(** The characters that the regexp syntax gives a meaning to. *)
Definition meta (c : ascii) : bool :=
  existsb (Ascii.eqb c) (list_ascii_of_string "\.+*?()|[]{}^$").

Fixpoint contains (pattern text : string) : bool :=
  String.prefix pattern text
  || match text with
     | EmptyString => false
     | String _ text' => contains pattern text'
     end.

(** [strconv.CanBackquote] and [strconv.Quote] on ASCII text. *)
Definition can_backquote (text : string) : bool :=
  forallb (fun c =>
             let n := nat_of_ascii c in
             (n =? 9) || ((32 <=? n) && (n <? 127) && negb (n =? 96)))
          (list_ascii_of_string text).

Definition hex_digit (n : nat) : string :=
  String (nth n (list_ascii_of_string "0123456789abcdef") "0"%char) EmptyString.

Definition quote_byte (c : ascii) : string :=
  let n := nat_of_ascii c in
  if (n =? 34) || (n =? 92) then String "\"%char (String c EmptyString)
  else if (32 <=? n) && (n <? 127) then String c EmptyString
  else if n =? 7 then "\a" else if n =? 8 then "\b"
  else if n =? 12 then "\f" else if n =? 10 then "\n"
  else if n =? 13 then "\r" else if n =? 9 then "\t"
  else if n =? 11 then "\v"
  else "\x" +:+ hex_digit (n / 16) +:+ hex_digit (n mod 16).

Fixpoint quote_bytes (text : string) : string :=
  match text with
  | EmptyString => EmptyString
  | String c text' => quote_byte c +:+ quote_bytes text'
  end.

Definition quote_pattern (text : string) : string :=
  if can_backquote text then "`" +:+ text +:+ "`"
  else String "034"%char (quote_bytes text +:+ String "034"%char EmptyString).

(** A regexp library for literal patterns: a pattern free of
    metacharacters compiles to the search for itself, which is what it
    means as a regular expression. Every other pattern is refused; of
    those only ["("] is used below, which no regexp syntax accepts. *)
Definition literal : Library :=
  {| Regexp := string;
     Compile pattern :=
       if forallb (fun c => negb (meta c)) (list_ascii_of_string pattern)
       then inr pattern
       else inl ("error parsing regexp: `" +:+ pattern +:+ "`");
     MatchString := contains;
     ToLower := lower;
     quote := quote_pattern |}.

Definition newline : string := String "010"%char EmptyString.

(** Two objects; reading ["b"] breaks off after three bytes. *)
Definition store_ab : storage :=
  {| NewClient := None;
     Objects := [inr "a"; inr "b"];
     Object path :=
       if String.eqb path "a" then ReadAllReturns "A" None
       else ReadAllReturns "par" (Some "unexpected EOF") |}.

(** Three objects with 2, 1 and 0 lines that contain "love". *)
Definition store_love : storage :=
  {| NewClient := None;
     Objects := [inr "sonnet"; inr "song"; inr "prose"];
     Object path :=
       if String.eqb path "sonnet" then
         ReadAllReturns ("Love is not love" +:+ newline +:+ "Which alters"
                         +:+ newline +:+ "O no! my LOVE") None
       else if String.eqb path "song" then
         ReadAllReturns ("Sigh no more" +:+ newline +:+ "lovers all") None
       else ReadAllReturns ("Exeunt" +:+ newline) None |}.

(** A listing that ends at once. *)
Definition store_empty : storage :=
  {| NewClient := None;
     Objects := [];
     Object path := NewReaderFails "storage: object doesn't exist" |}.

(** The body [{"match_count":n}], the digits of [n] being [digits]. *)
Definition body_of (digits : string) : string :=
  let quote := String "034"%char EmptyString in
  "{" +:+ quote +:+ "match_count" +:+ quote +:+ ":" +:+ digits +:+ "}".

Definition answers (body : string) (count : Z) : network :=
  {| request_url q := "http://localhost:8080?q=" +:+ q;
     Get url := inr body;
     ReadAll resp := inr resp;
     Unmarshal data r := ({| Matched := count |}, None) |}.

Definition refuses : network :=
  {| request_url q := "http://localhost:8080?q=" +:+ q;
     Get url := inl "connection refused";
     ReadAll resp := inr resp;
     Unmarshal data r := (r, None) |}.

(** The first goroutine of the batch meets a refused connection, the
    others get an answer. *)
Definition first_fails : world :=
  {| Intn k := 0;
     net_of k := if k =? 0 then refuses else answers (body_of "3040") 3040 |}.

Definition all_answer : world :=
  {| Intn k := k; net_of k := answers (body_of "3040") 3040 |}.

(** A batch of 20 workers under a limit of 5, at the point where all
    are started and the first five hold the permits. *)
Definition sched_20_5 : list event :=
  replicate 21 Caller ++ (Worker <$> seq 0 5) ++ [Worker 2].

Definition batch_20_5 : state :=
  {| pc := Receiving 0;
     goroutines := [Querying; Querying; Reporting None; Querying; Querying]
                   ++ replicate 15 Acquiring;
     concCh := 5; received := [] |}.

(** A listing that breaks after its first name. *)
Definition store_listing_breaks : storage :=
  {| NewClient := None;
     Objects := [inr "a"; inl "context deadline exceeded"; inr "b"];
     Object path := ReadAllReturns "A" None |}.

(** Two workers under one permit, every call answered, run to the end. *)
Definition sched_2_1 : list event :=
  [Caller; Caller; Caller;
   Worker 0; Worker 0; Worker 0; Worker 0;
   Worker 1; Worker 1; Worker 1; Worker 1; Caller].

Definition rest_2_1 : state :=
  {| pc := Returned None; goroutines := [Exited; Exited];
     concCh := 0; received := [None; None] |}.

(** Two workers under one permit, the first call refused: where the
    batch comes to rest. *)
Definition sched_leak : list event :=
  [Caller; Caller; Caller; Worker 0; Worker 0; Worker 0; Worker 0;
   Worker 1; Worker 1].

Definition rest_leak : state :=
  {| pc := Returned
             (Some "error sending request to http://localhost:8080?q=love: connection refused");
     goroutines := [Exited; Reporting None];
     concCh := 1;
     received :=
       [Some "error sending request to http://localhost:8080?q=love: connection refused"] |}.

End Fixtures.

(** * Properties *)

Import Go.

(** ** Arithmetic of [int64] counters *)

Lemma wrap64_small (z : Z) :
  (- 2 ^ 63 <= z < 2 ^ 63)%Z -> wrap64 z = z.
Proof.
  intros Hz. unfold wrap64.
  rewrite Z.mod_small by lia. lia.
Qed.

Lemma increments_shift (n : nat) (count : Z) :
  increments n (wrap64 (count + 1)) = wrap64 (increments n count + 1).
Proof.
  unfold increments. induction n as [|n IH]; simpl; [reflexivity|].
  now rewrite IH.
Qed.

Lemma increments_small (n : nat) (count : Z) :
  (0 <= count)%Z -> (count + Z.of_nat n < 2 ^ 63)%Z ->
  increments n count = (count + Z.of_nat n)%Z.
Proof.
  intros Hc. induction n as [|n IH]; intros Hn.
  - simpl. lia.
  - change (increments (S n) count) with (wrap64 (increments n count + 1)).
    rewrite IH by lia. rewrite wrap64_small; lia.
Qed.

Lemma increments_add (n m : nat) (count : Z) :
  increments (n + m) count = increments m (increments n count).
Proof.
  revert count. induction n as [|n IH]; intros count; [reflexivity|].
  change (increments (S n + m) count) with (wrap64 (increments (n + m) count + 1)).
  change (increments (S n) count) with (wrap64 (increments n count + 1)).
  now rewrite IH, increments_shift.
Qed.

(** ** The counting loops of [GetMatchCount] *)
Section CountingFacts.
Import Server.
Context `{Library}.

Lemma count_loop_increments {A} (P : A -> bool) (l : list A) (count : Z) :
  fold_left (fun count x => if P x then wrap64 (count + 1) else count) l count
  = increments (length (filter (fun x => P x = true) l)) count.
Proof.
  revert count. induction l as [|x l IH]; intros count; [reflexivity|].
  simpl fold_left. rewrite IH, filter_cons.
  destruct (P x) eqn:Hx.
  - rewrite decide_True by reflexivity. simpl length.
    apply increments_shift.
  - rewrite decide_False by discriminate. reflexivity.
Qed.

Lemma count_lines_increments (re : Regexp) (count : Z) (text : string) :
  count_lines re count text = increments (matching_lines re text) count.
Proof.
  unfold count_lines, matching_lines.
  apply (count_loop_increments (fun line => MatchString re (ToLower line))).
Qed.

Lemma count_texts_increments (re : Regexp) (texts : list string) (count : Z) :
  count_texts re texts count = increments (spec_count re texts) count.
Proof.
  unfold count_texts, spec_count. revert count.
  induction texts as [|text texts IH]; intros count; [reflexivity|].
  simpl fold_left. rewrite IH, count_lines_increments.
  change (sum_list_with (matching_lines re) (text :: texts))
    with (matching_lines re text + sum_list_with (matching_lines re) texts).
  now rewrite increments_add.
Qed.

Lemma spec_count_perm (re : Regexp) (C C' : list string) :
  C ≡ₚ C' -> spec_count re C = spec_count re C'.
Proof. intros HC. unfold spec_count. now rewrite HC. Qed.

End CountingFacts.

(** ** The receive loop of [readFiles] *)
Section ReceiveFacts.
Import Server.

Lemma last_error_None (rs : list resp) (err0 : option error) :
  last_error rs err0 = None <-> err0 = None /\ Forall (fun r => err r = None) rs.
Proof.
  revert err0. induction rs as [|r rs IH]; intros err0; simpl.
  - split; [intros ->; split; [reflexivity|constructor] | intros [-> _]; reflexivity].
  - change (last_error (r :: rs) err0)
      with (last_error rs (match err r with Some e => Some e | None => err0 end)).
    rewrite IH, Forall_cons. destruct (err r); split; intros [? ?]; try discriminate.
    + destruct H0; discriminate.
    + repeat split; assumption.
    + destruct H0. repeat split; assumption.
Qed.

Lemma last_error_Some (rs : list resp) (err0 : option error) (e : error) :
  last_error rs err0 = Some e ->
  err0 = Some e \/ exists r, r ∈ rs /\ err r = Some e.
Proof.
  revert err0. induction rs as [|r rs IH]; intros err0; simpl.
  - intros ->. now left.
  - change (last_error (r :: rs) err0)
      with (last_error rs (match err r with Some e => Some e | None => err0 end)).
    intros [He | (r' & Hr' & He)]%IH.
    + destruct (err r) eqn:Hr.
      * right. exists r. split; [apply elem_of_cons; now left | congruence].
      * now left.
    + right. exists r'. split; [apply elem_of_cons; now right | assumption].
Qed.

(** Whenever the loop runs to its end, the messages it received came
    from distinct goroutines, one per round, and [ret] holds their
    strings in the order of arrival. *)
Lemma receive_sound (order : list nat) :
  forall tasks n i ret err0 ret' err',
    Forall (fun task => sends_once task = true) tasks ->
    i <= n -> length ret = n ->
    receive order tasks n i ret err0 = Returns (ret', err') ->
    exists ks,
      NoDup ks /\ length ks = n - i /\
      (forall k, k ∈ ks -> exists r rest, tasks !! k = Some (Send r :: rest)) /\
      ret' = take i ret ++ ((fun k => s (sent_by tasks k)) <$> ks) /\
      err' = last_error (sent_by tasks <$> ks) err0.
Proof.
  assert (Hend : forall tasks n i (ret : list string) (err0 : option error) ret' err',
             i <= n -> length ret = n -> n <= i ->
             Returns (ret, err0) = Returns (ret', err') ->
             exists ks,
               NoDup ks /\ length ks = n - i /\
               (forall k, k ∈ ks -> exists r rest, tasks !! k = Some (Send r :: rest)) /\
               ret' = take i ret ++ ((fun k => s (sent_by tasks k)) <$> ks) /\
               err' = last_error (sent_by tasks <$> ks) err0).
  { intros tasks n i ret err0 ret' err' Hi Hlen Hn [= <- <-].
    exists []. repeat split.
    - constructor.
    - simpl. lia.
    - intros k Hk. inversion Hk.
    - simpl. rewrite take_ge by lia. now rewrite app_nil_r. }
  induction order as [|k order IH];
    intros tasks n i ret err0 ret' err' Hwf Hi Hlen Hrun; simpl in Hrun;
    destruct (n <=? i) eqn:Hn;
    try (apply Nat.leb_le in Hn; now apply (Hend tasks n i ret err0));
    try discriminate.
  apply Nat.leb_gt in Hn.
  destruct (tasks !! k) as [[|[r|] rest]|] eqn:Hk; try discriminate.
  pose proof (lookup_lt_Some _ _ _ Hk) as Hklt.
  pose proof (Forall_lookup_1 _ _ _ _ Hwf Hk) as Honce.
  apply IH in Hrun; [|apply Forall_insert; [assumption|now destruct rest as [|[|] ?]]
                     |lia|now rewrite length_insert].
  destruct Hrun as (ks & Hnd & Hlks & Hsend & Hret & Herr).
  assert (Hnotin : k ∉ ks).
  { intros (r' & rest' & Hk')%Hsend.
    rewrite list_lookup_insert_eq in Hk' by assumption.
    injection Hk' as ->. discriminate. }
  assert (Hsame : forall k', k' ∈ ks -> sent_by (<[k:=rest]> tasks) k' = sent_by tasks k').
  { intros k' Hk'. unfold sent_by.
    rewrite list_lookup_insert_ne; [reflexivity|]. intros ->. contradiction. }
  assert (Hr : sent_by tasks k = r) by (unfold sent_by; now rewrite Hk).
  exists (k :: ks). repeat split.
  - apply NoDup_cons. split; assumption.
  - simpl. lia.
  - intros k' [-> | Hk']%elem_of_cons; [eauto|].
    destruct (Hsend k' Hk') as (r' & rest' & Hlk). exists r', rest'.
    rewrite list_lookup_insert_ne in Hlk; [assumption|].
    intros ->. contradiction.
  - rewrite Hret. rewrite (take_S_r _ _ (s r)), take_insert_ge by
      (try apply list_lookup_insert_eq; lia).
    rewrite <- app_assoc. f_equal. rewrite fmap_cons, Hr. simpl. f_equal.
    apply list_fmap_ext. intros j k' Hj. f_equal.
    apply Hsame. eapply list_elem_of_lookup_2, Hj.
  - rewrite Herr, fmap_cons, Hr.
    change (last_error (r :: (sent_by tasks <$> ks)) err0)
      with (last_error (sent_by tasks <$> ks)
              (match err r with Some e => Some e | None => err0 end)).
    f_equal. apply list_fmap_ext. intros j k' Hj.
    apply Hsame. eapply list_elem_of_lookup_2, Hj.
Qed.

(** A schedule that lets every goroutine of [order] send once, when each
    of them has exactly one message to send, runs the loop to its end. *)
Lemma receive_complete (m : nat -> resp) (order : list nat) :
  forall tasks n i ret err0,
    NoDup order ->
    (forall k, k ∈ order -> tasks !! k = Some [Send (m k)]) ->
    i + length order = n -> length ret = n ->
    receive order tasks n i ret err0
    = Returns (take i ret ++ ((fun k => s (m k)) <$> order),
               last_error (m <$> order) err0).
Proof.
  induction order as [|k order IH]; intros tasks n i ret err0 Hnd Htasks Hn Hlen.
  - simpl in *. replace (n <=? i) with true by (symmetry; apply Nat.leb_le; lia).
    rewrite take_ge by lia. now rewrite app_nil_r.
  - simpl in Hn. simpl receive.
    replace (n <=? i) with false by (symmetry; apply Nat.leb_gt; lia).
    apply NoDup_cons in Hnd as [Hk Hnd].
    rewrite (Htasks k) by (apply elem_of_cons; now left).
    rewrite (IH (<[k:=[]]> tasks) n (S i)); try assumption; try lia.
    + rewrite (take_S_r _ _ (s (m k))), take_insert_ge by
        (try apply list_lookup_insert_eq; lia).
      rewrite <- app_assoc. reflexivity.
    + intros k' Hk'. rewrite list_lookup_insert_ne by (intros ->; contradiction).
      apply Htasks. apply elem_of_cons. now right.
    + now rewrite length_insert.
Qed.

End ReceiveFacts.

(** ** [readFiles] as a whole *)
Section ReadFilesFacts.
Import Server.

Lemma first_send_fetch_task (f : fetch) : first_send (fetch_task f) = answer f.
Proof. now destruct f. Qed.

Lemma fetch_task_sends_once (f : fetch) : sends_once (fetch_task f) = true.
Proof. now destruct f. Qed.

Lemma fmap_seq_lookups {A B} (f : A -> B) (d : A) (l : list A) :
  (fun k => f (default d (l !! k))) <$> seq 0 (length l) = f <$> l.
Proof.
  apply list_eq. intros i. rewrite !list_lookup_fmap.
  destruct (decide (i < length l)) as [Hi|Hi].
  - rewrite lookup_seq_lt by assumption.
    destruct (lookup_lt_is_Some_2 l i Hi) as [x Hx]. simpl. now rewrite Hx.
  - rewrite lookup_seq_ge, lookup_ge_None_2 by lia. reflexivity.
Qed.

Lemma distinct_indices (ks : list nat) (n : nat) :
  NoDup ks -> length ks = n -> (forall k, k ∈ ks -> k < n) -> ks ≡ₚ seq 0 n.
Proof.
  intros Hnd Hlen Hlt. apply submseteq_length_Permutation.
  - apply NoDup_submseteq; [assumption|].
    intros k Hk. apply elem_of_seq. specialize (Hlt k Hk). lia.
  - rewrite length_seq. lia.
Qed.

Lemma sent_by_fetch_tasks (st : storage) (paths : list string) :
  sent_by ((fun path => fetch_task (Object st path)) <$> paths)
    <$> seq 0 (length paths)
  = (fun path => answer (Object st path)) <$> paths.
Proof.
  unfold sent_by.
  rewrite <- (length_fmap (fun path => fetch_task (Object st path)) paths).
  rewrite (fmap_seq_lookups first_send), <- list_fmap_compose.
  apply list_fmap_ext. intros i path _. apply first_send_fetch_task.
Qed.

(** Whatever the schedule, when [readFiles] gets to its last line it has
    received one message for each listed object, [ret] holds their
    strings in arrival order and the error is the last one that arrived. *)
Lemma readFiles_arrivals (st : storage) (paths : list string)
    (order : list nat) (texts : list string) (e : option error) :
  NewClient st = None ->
  list_objects (Objects st) [] = inr paths ->
  readFiles st bucketName bucketPrefix order = Returns (texts, e) ->
  exists rs,
    rs ≡ₚ (fun path => answer (Object st path)) <$> paths /\
    texts = s <$> rs /\ e = last_error rs None.
Proof.
  intros Hclient Hlist Hrun. unfold readFiles in Hrun.
  rewrite Hclient, Hlist in Hrun.
  apply receive_sound in Hrun;
    [|apply Forall_fmap, Forall_forall; intros; apply fetch_task_sends_once
     |lia|apply length_replicate].
  destruct Hrun as (ks & Hnd & Hlen & Hsend & -> & ->).
  set (tasks := (fun path => fetch_task (Object st path)) <$> paths) in *.
  exists (sent_by tasks <$> ks). repeat split.
  - rewrite <- sent_by_fetch_tasks. fold tasks.
    apply fmap_Permutation, distinct_indices; [assumption|lia|].
    intros k (r & rest & Hk%lookup_lt_Some)%Hsend.
    unfold tasks in Hk. now rewrite length_fmap in Hk.
  - rewrite take_0. simpl. now rewrite <- list_fmap_compose.
Qed.

(** When every fetch gets as far as [ioutil.ReadAll], a schedule that
    lets each goroutine send makes [readFiles] return. *)
Lemma readFiles_complete (st : storage) (paths : list string) (order : list nat) :
  NewClient st = None ->
  list_objects (Objects st) [] = inr paths ->
  Forall (fun path => exists data e, Object st path = ReadAllReturns data e) paths ->
  order ≡ₚ seq 0 (length paths) ->
  exists texts e,
    readFiles st bucketName bucketPrefix order = Returns (texts, e).
Proof.
  intros Hclient Hlist Hread Horder. unfold readFiles.
  rewrite Hclient, Hlist.
  set (tasks := (fun path => fetch_task (Object st path)) <$> paths).
  eexists _, _. apply (receive_complete (sent_by tasks)).
  - rewrite Horder. apply NoDup_seq.
  - intros k Hk. rewrite Horder in Hk. apply elem_of_seq in Hk.
    destruct (lookup_lt_is_Some_2 paths k) as [path Hpath]; [lia|].
    unfold sent_by, tasks. rewrite list_lookup_fmap, Hpath. simpl.
    destruct (Forall_lookup_1 _ _ _ _ Hread Hpath) as (data & e & ->).
    reflexivity.
  - rewrite Horder, length_seq. reflexivity.
  - apply length_replicate.
Qed.

Lemma fetched_submseteq (st : storage) (paths : list string) :
  fetched st paths ⊆+ (fun path => slot (Object st path)) <$> paths.
Proof.
  unfold fetched. induction paths as [|path paths IH]; simpl; [constructor|].
  destruct (Object st path) as [e|data [e|]]; simpl.
  - now apply submseteq_cons.
  - now apply submseteq_cons.
  - now apply submseteq_skip.
Qed.

End ReadFilesFacts.

(** ** Claims about the server *)
Section ServerClaims.
Import Server Fixtures.

(** C1, as stated, fails: with two listed objects of which the second
    breaks off while being read, [readFiles] returns an error and a
    slice of two strings, the second being the bytes read before the
    failure; the only document fetched successfully is the first. *)
Lemma readFiles_keeps_failed_slot :
  readFiles store_ab bucketName bucketPrefix [0; 1]
  = Returns (["A"; "par"], Some "unexpected EOF")
  /\ fetched store_ab ["a"; "b"] = ["A"]
  /\ ~ (["A"; "par"] ≡ₚ fetched store_ab ["a"; "b"]).
Proof.
  repeat split. intros Hperm%Permutation_length. discriminate.
Qed.

(** C1 (amended): when the listing gives the objects [paths], every
    fetch gets as far as reading and at least one read fails, then
    [readFiles] returns under every schedule that lets each goroutine
    send; and whenever it returns, the error is non-nil and is the error
    of one of the failed fetches, and the slice has one entry per listed
    object: the content of every document fetched successfully, and for
    every failed fetch the bytes read before it failed. *)
Theorem readFiles_partial_failure (st : storage) (paths : list string) :
  NewClient st = None ->
  list_objects (Objects st) [] = inr paths ->
  Forall (fun path => exists data e, Object st path = ReadAllReturns data e) paths ->
  Exists (fun path => failure (Object st path) <> None) paths ->
  (forall order, order ≡ₚ seq 0 (length paths) ->
     exists texts e,
       readFiles st bucketName bucketPrefix order = Returns (texts, Some e))
  /\ (forall order texts e,
        readFiles st bucketName bucketPrefix order = Returns (texts, e) ->
        (exists e' path,
           e = Some e' /\ path ∈ paths /\ failure (Object st path) = Some e')
        /\ length texts = length paths
        /\ texts ≡ₚ (fun path => slot (Object st path)) <$> paths
        /\ fetched st paths ⊆+ texts).
Proof.
  intros Hclient Hlist Hread Hfail.
  assert (Hsound : forall order texts e,
    readFiles st bucketName bucketPrefix order = Returns (texts, e) ->
    (exists e' path,
       e = Some e' /\ path ∈ paths /\ failure (Object st path) = Some e')
    /\ length texts = length paths
    /\ texts ≡ₚ (fun path => slot (Object st path)) <$> paths
    /\ fetched st paths ⊆+ texts).
  { intros order texts e Hrun.
    destruct (readFiles_arrivals st paths order texts e Hclient Hlist Hrun)
      as (rs & Hrs & -> & ->).
    assert (Htexts : s <$> rs ≡ₚ (fun path => slot (Object st path)) <$> paths).
    { rewrite Hrs, <- list_fmap_compose. reflexivity. }
    repeat split.
    - destruct (last_error rs None) as [e'|] eqn:He.
      + apply last_error_Some in He as [He | (r & Hr & He)]; [discriminate|].
        rewrite Hrs in Hr. apply list_elem_of_fmap in Hr as (path & -> & Hpath).
        exists e', path. repeat split; assumption.
      + exfalso. apply last_error_None in He as [_ He].
        rewrite Hrs, Forall_fmap in He.
        apply Exists_exists in Hfail as (path & Hpath & Hfail).
        apply Hfail. rewrite Forall_forall in He. apply (He path Hpath).
    - rewrite Htexts. apply length_fmap.
    - assumption.
    - rewrite Htexts. apply fetched_submseteq. }
  split; [|assumption].
  intros order Horder.
  destruct (readFiles_complete st paths order Hclient Hlist Hread Horder)
    as (texts & e & Hrun).
  destruct (Hsound order texts e Hrun) as ((e' & _ & -> & _) & _).
  eauto.
Qed.

Lemma readFiles_partial_failure_witness :
  fetched store_ab ["a"; "b"] = ["A"]
  /\ (forall order, order ≡ₚ seq 0 2 ->
        exists texts e,
          readFiles store_ab bucketName bucketPrefix order = Returns (texts, Some e))
  /\ (forall order texts e,
        readFiles store_ab bucketName bucketPrefix order = Returns (texts, e) ->
        (exists e' path,
           e = Some e' /\ path ∈ ["a"; "b"]
           /\ failure (Object store_ab path) = Some e')
        /\ length texts = 2
        /\ texts ≡ₚ ["A"; "par"]
        /\ fetched store_ab ["a"; "b"] ⊆+ texts).
Proof.
  split; [reflexivity|].
  apply (readFiles_partial_failure store_ab ["a"; "b"]).
  - reflexivity.
  - reflexivity.
  - repeat constructor; eexists _, _; reflexivity.
  - apply Exists_cons_tl, Exists_cons_hd. discriminate.
Defined.

(** C9: when the listing ends without having yielded an object name,
    [readFiles] returns an empty slice and a nil error. *)
Theorem readFiles_empty_listing (st : storage) (order : list nat) :
  NewClient st = None ->
  list_objects (Objects st) [] = inr [] ->
  readFiles st bucketName bucketPrefix order = Returns ([], None).
Proof.
  intros Hclient Hlist. unfold readFiles. rewrite Hclient, Hlist.
  destruct order; reflexivity.
Qed.

Lemma readFiles_empty_listing_witness :
  readFiles store_empty bucketName bucketPrefix [] = Returns ([], None).
Proof.
  apply (readFiles_empty_listing store_empty []); reflexivity.
Defined.

End ServerClaims.

(** ** Claims about [GetMatchCount] *)
Section GetMatchCountClaims.
Import Server.
Context `{Library}.

Lemma readFiles_nil_error (st : storage) (order : list nat) (C : list string) :
  readFiles st bucketName bucketPrefix order = Returns (C, None) ->
  exists paths,
    NewClient st = None /\ list_objects (Objects st) [] = inr paths.
Proof.
  unfold readFiles. intros Hrun.
  destruct (NewClient st); [discriminate|].
  destruct (list_objects (Objects st) []) as [e|paths]; [discriminate|].
  now exists paths.
Qed.

(** Two runs of [readFiles] over the same store that both end without
    error return the same documents, up to their order. *)
Lemma readFiles_runs_agree (st : storage) (order order' : list nat)
    (C C' : list string) :
  readFiles st bucketName bucketPrefix order = Returns (C, None) ->
  readFiles st bucketName bucketPrefix order' = Returns (C', None) ->
  C ≡ₚ C'.
Proof.
  intros Hrun Hrun'.
  destruct (readFiles_nil_error _ _ _ Hrun) as (paths & Hclient & Hlist).
  destruct (readFiles_arrivals _ _ _ _ _ Hclient Hlist Hrun) as (rs & Hrs & -> & _).
  destruct (readFiles_arrivals _ _ _ _ _ Hclient Hlist Hrun') as (rs' & Hrs' & -> & _).
  now rewrite Hrs, Hrs'.
Qed.

(** C6: the count that the loops of [GetMatchCount] reach does not depend
    on the order in which the documents are iterated; and two runs of
    [GetMatchCount] for the same request over the same store, whatever the
    order in which the documents arrived in each, give the same response. *)
Theorem GetMatchCount_order_irrelevant :
  (forall (re : Regexp) (C C' : list string) (count : Z),
      C ≡ₚ C' -> count_texts re C count = count_texts re C' count)
  /\ (forall (st : storage) (order order' : list nat) (req : ShakespeareRequest)
        (C C' : list string),
        readFiles st bucketName bucketPrefix order = Returns (C, None) ->
        readFiles st bucketName bucketPrefix order' = Returns (C', None) ->
        GetMatchCount st order req = GetMatchCount st order' req).
Proof.
  assert (Hperm : forall (re : Regexp) (C C' : list string) (count : Z),
             C ≡ₚ C' -> count_texts re C count = count_texts re C' count).
  { intros re C C' count HC.
    now rewrite !count_texts_increments, (spec_count_perm re C C' HC). }
  split; [exact Hperm|].
  intros st order order' req C C' Hrun Hrun'.
  pose proof (readFiles_runs_agree _ _ _ _ _ Hrun Hrun') as HC.
  unfold GetMatchCount. rewrite Hrun, Hrun'.
  destruct (Compile (ToLower (Query req))) as [e|re]; [reflexivity|].
  now rewrite (Hperm re C C' _ HC).
Qed.


(** C2 (amended): for a query whose lower-cased text does not compile as
    a pattern, what [GetMatchCount] does is decided by the retrieval alone.
    When the corpus was retrieved without error it panics in
    [regexp.MustCompile], with the text of that panic, whatever the corpus
    holds; when the retrieval failed it returns the retrieval error,
    wrapped, with a zero count, the pattern not having been compiled; when
    the retrieval panics or hangs, so does it. So whenever it returns, it
    returns a zero count and the retrieval error: never a count, and never
    an error about the pattern. *)
Theorem GetMatchCount_invalid_pattern (st : storage) (order : list nat)
    (q : string) (e : error) :
  Compile (ToLower q) = inl e ->
  (forall texts,
      readFiles st bucketName bucketPrefix order = Returns (texts, None) ->
      GetMatchCount st order {| Query := q |}
      = Panics ("regexp: Compile(" +:+ quote (ToLower q) +:+ "): " +:+ e))
  /\ (forall texts e',
        readFiles st bucketName bucketPrefix order = Returns (texts, Some e') ->
        GetMatchCount st order {| Query := q |}
        = Returns ({| MatchCount := 0 |}, Some (Errorf "fails to read files: " e')))
  /\ (forall msg,
        readFiles st bucketName bucketPrefix order = Panics msg ->
        GetMatchCount st order {| Query := q |} = Panics msg)
  /\ (readFiles st bucketName bucketPrefix order = Blocked ->
      GetMatchCount st order {| Query := q |} = Blocked)
  /\ (forall resp err,
        GetMatchCount st order {| Query := q |} = Returns (resp, err) ->
        MatchCount resp = 0%Z
        /\ exists texts e',
            readFiles st bucketName bucketPrefix order = Returns (texts, Some e')
            /\ err = Some (Errorf "fails to read files: " e')).
Proof.
  intros Hre. unfold GetMatchCount. split; [|split; [|split; [|split]]].
  - intros texts Hrun. rewrite Hrun. simpl. now rewrite Hre.
  - intros texts e' Hrun. now rewrite Hrun.
  - intros msg Hrun. now rewrite Hrun.
  - intros Hrun. now rewrite Hrun.
  - intros resp err0.
    destruct (readFiles st bucketName bucketPrefix order)
      as [[texts [e'|]]|msg|]; simpl; try discriminate.
    + intros [= <- <-]. split; [reflexivity|]. now exists texts, e'.
    + rewrite Hre. discriminate.
Qed.

End GetMatchCountClaims.

Section GetMatchCountRuns.
Import Server Fixtures.


(** C2, as stated, fails: for the pattern ["("], which does not compile,
    [GetMatchCount] does not return to its caller, with or without an
    error: it panics. *)
Lemma GetMatchCount_invalid_pattern_panics :
  @Compile literal (@ToLower literal "(") = inl "error parsing regexp: `(`"
  /\ @GetMatchCount literal store_love [0; 1; 2] {| Query := "(" |}
     = Panics "regexp: Compile(`(`): error parsing regexp: `(`"
  /\ forall r, @GetMatchCount literal store_love [0; 1; 2] {| Query := "(" |}
               <> Returns r.
Proof.
  repeat split. intros r. discriminate.
Qed.

Lemma GetMatchCount_invalid_pattern_witness :
  (forall texts,
      readFiles store_ab bucketName bucketPrefix [0; 1] = Returns (texts, None) ->
      @GetMatchCount literal store_ab [0; 1] {| Query := "(" |}
      = Panics "regexp: Compile(`(`): error parsing regexp: `(`")
  /\ (forall texts e',
        readFiles store_ab bucketName bucketPrefix [0; 1] = Returns (texts, Some e') ->
        @GetMatchCount literal store_ab [0; 1] {| Query := "(" |}
        = Returns ({| MatchCount := 0 |}, Some (Errorf "fails to read files: " e')))
  /\ (forall msg,
        readFiles store_ab bucketName bucketPrefix [0; 1] = Panics msg ->
        @GetMatchCount literal store_ab [0; 1] {| Query := "(" |} = Panics msg)
  /\ (readFiles store_ab bucketName bucketPrefix [0; 1] = Blocked ->
      @GetMatchCount literal store_ab [0; 1] {| Query := "(" |} = Blocked)
  /\ (forall resp err,
        @GetMatchCount literal store_ab [0; 1] {| Query := "(" |}
        = Returns (resp, err) ->
        MatchCount resp = 0%Z
        /\ exists texts e',
            readFiles store_ab bucketName bucketPrefix [0; 1]
            = Returns (texts, Some e')
            /\ err = Some (Errorf "fails to read files: " e')).
Proof.
  apply (@GetMatchCount_invalid_pattern literal store_ab [0; 1] "("
           "error parsing regexp: `(`").
  reflexivity.
Defined.

End GetMatchCountRuns.

(** ** Counting goroutines *)
Section CountFacts.
Import Loadgen.

Lemma count_nil (P : worker -> bool) : count P [] = 0.
Proof. reflexivity. Qed.

Lemma count_cons (P : worker -> bool) (g : worker) (gs : list worker) :
  count P (g :: gs) = (if P g then 1 else 0) + count P gs.
Proof.
  unfold count. rewrite filter_cons.
  destruct (P g); [rewrite decide_True by reflexivity
                  |rewrite decide_False by discriminate]; reflexivity.
Qed.

Lemma count_app (P : worker -> bool) (gs gs' : list worker) :
  count P (gs ++ gs') = count P gs + count P gs'.
Proof. unfold count. now rewrite filter_app, length_app. Qed.

Lemma count_insert (P : worker -> bool) (gs : list worker) (k : nat)
    (old new : worker) :
  gs !! k = Some old ->
  count P (<[k := new]> gs) + (if P old then 1 else 0)
  = count P gs + (if P new then 1 else 0).
Proof.
  revert k. induction gs as [|g gs IH]; intros [|k] Hk; try discriminate.
  - injection Hk as ->. simpl. rewrite !count_cons. lia.
  - simpl. rewrite !count_cons. specialize (IH k Hk). lia.
Qed.

Lemma count_le_length (P : worker -> bool) (gs : list worker) :
  count P gs <= length gs.
Proof. apply length_filter. Qed.

Lemma count_lookup (P : worker -> bool) (gs : list worker) (k : nat) (g : worker) :
  gs !! k = Some g -> P g = true -> 1 <= count P gs.
Proof.
  revert k. induction gs as [|g' gs IH]; intros [|k] Hk HP; try discriminate.
  - injection Hk as ->. rewrite count_cons, HP. lia.
  - rewrite count_cons. specialize (IH k Hk HP). lia.
Qed.

Lemma moves_insert (gs : list worker) (k : nat) (old new : worker) :
  gs !! k = Some old ->
  sum_list_with worker_moves (<[k := new]> gs) + worker_moves old
  = sum_list_with worker_moves gs + worker_moves new.
Proof.
  revert k. induction gs as [|g gs IH]; intros [|k] Hk; try discriminate.
  - injection Hk as ->. simpl. lia.
  - simpl. specialize (IH k Hk). lia.
Qed.

End CountFacts.

(** ** The state machine of [run] *)
Section RunFacts.
Import Loadgen.
Variable w : world.
Variable workers : Z.
Variable capacity : nat.

Local Abbreviation step := (step w workers capacity).
Local Abbreviation exec := (exec w workers capacity).
Local Abbreviation invariant := (invariant w workers capacity).
Local Abbreviation moves_left := (moves_left workers).

Lemma invariant_init : invariant init.
Proof.
  constructor; simpl; try reflexivity; try lia.
  - intros k e Hk. destruct k; discriminate.
  - constructor.
  - split; [reflexivity|]. split; [lia|reflexivity].
Qed.

Lemma reporting_insert (gs : list worker) (k : nat) (g : worker) :
  (forall e, g = Reporting e -> e = task w k) ->
  (forall k' e, gs !! k' = Some (Reporting e) -> e = task w k') ->
  forall k' e, <[k := g]> gs !! k' = Some (Reporting e) -> e = task w k'.
Proof.
  intros Hg Hgs k' e Hk'.
  apply list_lookup_insert_Some in Hk' as [(-> & Hg' & _) | (_ & Hk')].
  - now apply Hg.
  - now apply Hgs.
Qed.

Lemma step_invariant (ev : event) (st st' : state) :
  invariant st -> step ev st = Some st' -> invariant st'.
Proof.
  intros [Hpermits Hcap Hreported Hreporting Hreceived [Hlen Hview]] Hstep.
  destruct st as [c gs n rs]. simpl in *.
  destruct ev as [|k]; simpl in Hstep.
  - destruct c as [m|i|r]; [| |discriminate].
    + destruct (Z.ltb_spec m workers) as [Hm|Hm]; injection Hstep as <-;
        destruct Hview as [Hm0 ->]; simpl in Hreported;
        constructor; unfold caller_view; simpl; try assumption;
        rewrite ?count_app, ?count_cons, ?count_nil; simpl; try lia.
      * intros k e Hk. apply lookup_app_Some in Hk as [Hk | [_ Hk]].
        -- now apply Hreporting.
        -- destruct (k - length gs) as [|?]; discriminate.
      * constructor.
      * split; [rewrite length_app; simpl; lia|]. split; [lia|reflexivity].
      * split; [lia|]. split; [reflexivity|constructor].
    + destruct (Z.ltb_spec i workers) as [Hi|Hi]; [discriminate|].
      injection Hstep as <-. destruct Hview as [Hi' Hnone].
      constructor; unfold caller_view; simpl; try assumption.
      split; [assumption|]. split; [|assumption].
      pose proof (count_le_length reported gs). lia.
  - destruct (gs !! k) as [[| |e| |]|] eqn:Hk; try discriminate.
    + destruct (Nat.ltb_spec n capacity) as [Hn|Hn]; [|discriminate].
      injection Hstep as <-.
      pose proof (count_insert holds_permit gs k _ Querying Hk) as Hh.
      pose proof (count_insert reported gs k _ Querying Hk) as Hr.
      constructor; unfold caller_view; simpl in *; rewrite ?length_insert;
        try assumption; try lia.
      * apply reporting_insert; [discriminate|assumption].
      * now split.
    + injection Hstep as <-. unfold set_worker. simpl.
      pose proof (count_insert holds_permit gs k _ (Reporting (task w k)) Hk) as Hh.
      pose proof (count_insert reported gs k _ (Reporting (task w k)) Hk) as Hr.
      constructor; unfold caller_view; simpl in *; rewrite ?length_insert;
        try assumption; try lia.
      * apply reporting_insert; [now intros e [= <-]|assumption].
      * now split.
    + destruct c as [m|i|r]; try discriminate.
      destruct (Z.ltb_spec i workers) as [Hi|Hi]; [|discriminate].
      injection Hstep as <-. destruct Hview as [Hi' Hnone].
      pose proof (count_insert holds_permit gs k _ Releasing Hk) as Hh.
      pose proof (count_insert reported gs k _ Releasing Hk) as Hr.
      pose proof (lookup_lt_Some _ _ _ Hk) as Hklt.
      constructor; unfold caller_view; simpl in *;
        rewrite ?length_insert, ?length_app; simpl; try assumption; try lia.
      * apply reporting_insert; [discriminate|assumption].
      * apply Forall_app. split; [assumption|].
        constructor; [|constructor]. exists k. split; [assumption|].
        now apply Hreporting.
      * split; [now destruct e|].
        destruct e as [e|].
        -- exists rs. repeat split; [assumption|lia].
        -- split; [lia|].
           apply Forall_app. split; [assumption|repeat constructor].
    + destruct n as [|n]; [discriminate|]. injection Hstep as <-.
      pose proof (count_insert holds_permit gs k _ Exited Hk) as Hh.
      pose proof (count_insert reported gs k _ Exited Hk) as Hr.
      constructor; unfold caller_view; simpl in *; rewrite ?length_insert;
        try assumption; try lia.
      * apply reporting_insert; [discriminate|assumption].
      * now split.
Qed.

Lemma exec_invariant (sched : list event) :
  forall st st', invariant st -> exec sched st = Some st' -> invariant st'.
Proof.
  induction sched as [|ev sched IH]; intros st st' Hinv Hexec; simpl in Hexec.
  - now injection Hexec as <-.
  - destruct (step ev st) as [st1|] eqn:Hstep; [|discriminate].
    eapply IH; [|exact Hexec]. eapply step_invariant; eassumption.
Qed.

(** Every move uses up one of the moves that are left. *)
Lemma step_moves_left (ev : event) (st st' : state) :
  step ev st = Some st' -> moves_left st' < moves_left st.
Proof.
  destruct st as [c gs n rs]. unfold moves_left. simpl.
  destruct ev as [|k]; simpl.
  - destruct c as [m|i|r]; [| |discriminate].
    + destruct (Z.ltb_spec m workers) as [Hm|Hm]; intros [= <-]; simpl.
      * rewrite sum_list_with_app. simpl.
        replace (Z.to_nat (workers - m)) with (S (Z.to_nat (workers - (m + 1))))
          by lia.
        lia.
      * lia.
    + destruct (Z.ltb_spec i workers) as [Hi|Hi]; [discriminate|].
      intros [= <-]. simpl. lia.
  - destruct (gs !! k) as [[| |e| |]|] eqn:Hk; try discriminate.
    + destruct (n <? capacity); [|discriminate]. intros [= <-]. simpl.
      pose proof (moves_insert gs k _ Querying Hk). simpl in *. lia.
    + intros [= <-]. simpl.
      pose proof (moves_insert gs k _ (Reporting (task w k)) Hk). simpl in *. lia.
    + destruct c as [m|i|r]; try discriminate.
      destruct (i <? workers)%Z; [|discriminate]. intros [= <-]. simpl.
      pose proof (moves_insert gs k _ Releasing Hk). simpl in *.
      destruct e; simpl; lia.
    + destruct n as [|n]; [discriminate|]. intros [= <-]. simpl.
      pose proof (moves_insert gs k _ Exited Hk). simpl in *. lia.
Qed.

Lemma exec_moves_left (sched : list event) :
  forall st st', exec sched st = Some st' ->
                 length sched + moves_left st' <= moves_left st.
Proof.
  induction sched as [|ev sched IH]; intros st st' Hexec; simpl in Hexec.
  - injection Hexec as <-. simpl. lia.
  - destruct (step ev st) as [st1|] eqn:Hstep; [|discriminate].
    apply step_moves_left in Hstep. apply IH in Hexec. simpl. lia.
Qed.

End RunFacts.

(** ** [run] returns *)
Section RunProgress.
Import Loadgen.
Variable w : world.
Variable workers : Z.
Variable capacity : nat.
Hypothesis capacity_pos : 1 <= capacity.

Local Abbreviation step := (step w workers capacity).
Local Abbreviation exec := (exec w workers capacity).
Local Abbreviation invariant := (invariant w workers capacity).
Local Abbreviation pick := (pick workers).
Local Abbreviation drive := (drive w workers capacity).

Lemma count_none (P : worker -> bool) (gs : list worker) :
  Forall (fun g => ~ P g = true) gs -> count P gs = 0.
Proof.
  induction 1 as [|g gs Hg _ IH]; [reflexivity|].
  rewrite count_cons, IH. now destruct (P g).
Qed.

Lemma count_all_exited (gs : list worker) :
  Forall (fun g => ~ holds_permit g = true) gs ->
  Forall (fun g => ~ acquiring g = true) gs ->
  count reported gs = length gs.
Proof.
  induction 1 as [|g gs Hg _ IH]; intros Hacq; [reflexivity|].
  apply Forall_cons in Hacq as [Hg' Hacq].
  rewrite count_cons, IH by assumption.
  destruct g; simpl in *; try reflexivity; contradiction.
Qed.

(** While [run] has not returned, the goroutine that [pick] names can move. *)
Lemma pick_moves (st : state) :
  invariant st -> (forall r, pc st <> Returned r) ->
  exists ev st', pick st = Some ev /\ step ev st = Some st'.
Proof.
  intros [Hpermits Hcap Hreported Hreporting Hreceived [Hlen Hview]] Hrun.
  destruct st as [c gs n rs]. unfold Loadgen.pick. simpl in *.
  destruct c as [m|i|r]; [| |now destruct (Hrun r)].
  - exists Caller. simpl. destruct (m <? workers)%Z; eauto.
  - destruct (Z.ltb_spec i workers) as [Hi|Hi].
    2:{ exists Caller. simpl.
        destruct (Z.ltb_spec i workers); [lia|eauto]. }
    destruct (list_find (fun g => holds_permit g = true) gs) as [[k g]|] eqn:Hfind.
    + apply list_find_Some in Hfind as (Hk & Hg & _).
      exists (Worker k). simpl. rewrite Hk.
      destruct g as [| |e| |]; try discriminate.
      * eauto.
      * destruct (Z.ltb_spec i workers); [eauto|lia].
      * pose proof (count_lookup holds_permit gs k _ Hk eq_refl).
        destruct n as [|n]; [lia|eauto].
    + apply list_find_None in Hfind.
      pose proof (count_none holds_permit gs Hfind) as Hzero.
      destruct (list_find (fun g => acquiring g = true) gs) as [[k g]|] eqn:Hfind'.
      * apply list_find_Some in Hfind' as (Hk & Hg & _).
        exists (Worker k). simpl. rewrite Hk.
        destruct g; try discriminate.
        destruct (Nat.ltb_spec n capacity); [eauto|lia].
      * apply list_find_None in Hfind'.
        pose proof (count_all_exited gs Hfind Hfind').
        destruct Hview as [Hi' _]. lia.
Qed.

(** The schedule of [pick] brings [run] to its return. *)
Lemma drive_returns (fuel : nat) :
  forall st, invariant st -> moves_left workers st <= fuel ->
             exists st' r, exec (drive fuel st) st = Some st' /\ pc st' = Returned r.
Proof.
  induction fuel as [|fuel IH]; intros st Hinv Hfuel.
  - exists st. destruct st as [[m|i|r] gs n rs];
      unfold moves_left in Hfuel; simpl in Hfuel; try lia.
    now exists r.
  - destruct (pc st) as [m|i|r] eqn:Hpc.
    3:{ exists st, r. split; [|assumption].
        simpl. unfold Loadgen.pick. now rewrite Hpc. }
    all: destruct (pick_moves st Hinv) as (ev & st1 & Hpick & Hstep);
      [intros r; rewrite Hpc; discriminate|];
      simpl; rewrite Hpick, Hstep; simpl; rewrite Hstep;
      apply IH;
      [eapply step_invariant; eassumption
      |apply step_moves_left in Hstep; lia].
Qed.

Lemma stuck_returned (st : state) :
  invariant st -> stuck w workers capacity st -> exists r, pc st = Returned r.
Proof.
  intros Hinv Hstuck. destruct (pc st) as [m|i|r] eqn:Hpc; [| |now exists r].
  all: destruct (pick_moves st Hinv) as (ev & st1 & _ & Hstep);
    [intros r; rewrite Hpc; discriminate|];
    rewrite (Hstuck ev) in Hstep; discriminate.
Qed.

Lemma count_all (P : worker -> bool) (gs : list worker) :
  count P gs = length gs -> Forall (fun g => P g = true) gs.
Proof.
  induction gs as [|g gs IH]; [constructor|].
  rewrite count_cons. simpl. pose proof (count_le_length P gs).
  destruct (P g) eqn:Hg; intros Hcount; [|lia].
  constructor; [assumption|]. apply IH. lia.
Qed.

(** X11: on the path without error nothing leaks: once [run] has returned nil
    and the batch has come to rest, every worker has exited and [concCh]
    is empty. *)
Lemma run_nil_releases_all (sched : list event) (st : state) :
  exec sched init = Some st ->
  stuck w workers capacity st -> pc st = Returned None ->
  Forall (eq Exited) (goroutines st) /\ concCh st = 0.
Proof.
  intros Hexec Hstuck Hpc.
  pose proof (exec_invariant _ _ _ _ _ _ (invariant_init _ _ _) Hexec) as Hinv.
  destruct Hinv as [Hpermits _ Hreported _ _ [Hlen Hview]].
  rewrite Hpc in Hlen, Hview. destruct Hview as [Hn _].
  assert (Hall : Forall (fun g => reported g = true) (goroutines st))
    by (apply count_all; lia).
  assert (Hexited : Forall (eq Exited) (goroutines st)).
  { apply Forall_lookup. intros k g Hk.
    pose proof (Forall_lookup_1 _ _ _ _ Hall Hk) as Hg.
    destruct g; try discriminate; [|reflexivity].
    pose proof (count_lookup holds_permit _ k _ Hk eq_refl) as Hheld.
    specialize (Hstuck (Worker k)). simpl in Hstuck. rewrite Hk in Hstuck.
    destruct (concCh st); [lia|discriminate]. }
  split; [assumption|]. rewrite <- Hpermits. apply count_none.
  eapply Forall_impl; [exact Hexited|]. intros g <-. discriminate.
Qed.

End RunProgress.

(** ** Whose reports [run] receives *)
Section RunReports.
Import Loadgen.
Variable w : world.
Variable workers : Z.
Variable capacity : nat.

Lemma has_reported_insert (gs : list worker) (k k' : nat) (old new : worker) :
  gs !! k = Some old ->
  has_reported (<[k := new]> gs) k'
  = if decide (k' = k) then reported new else has_reported gs k'.
Proof.
  intros Hk. unfold has_reported. destruct (decide (k' = k)) as [->|Hne].
  - rewrite list_lookup_insert_eq by (eapply lookup_lt_Some; eassumption).
    reflexivity.
  - rewrite list_lookup_insert_ne by congruence. reflexivity.
Qed.

Lemma has_reported_same (gs : list worker) (k k' : nat) (old new : worker) :
  gs !! k = Some old -> reported new = reported old ->
  has_reported (<[k := new]> gs) k' = has_reported gs k'.
Proof.
  intros Hk Hsame. rewrite (has_reported_insert gs k k' old new Hk).
  destruct (decide (k' = k)) as [->|_]; [|reflexivity].
  unfold has_reported. now rewrite Hk.
Qed.

Lemma has_reported_launch (gs : list worker) (k : nat) :
  has_reported (gs ++ [Acquiring]) k = has_reported gs k.
Proof.
  unfold has_reported. destruct (decide (k < length gs)) as [Hk|Hk].
  - now rewrite lookup_app_l.
  - rewrite lookup_app_r, (lookup_ge_None_2 gs k) by lia.
    now destruct (k - length gs) as [|[|?]].
Qed.

Lemma step_reports_tied (ev : event) (st st' : state) :
  invariant w workers capacity st -> reports_tied w st ->
  step w workers capacity ev st = Some st' -> reports_tied w st'.
Proof.
  intros Hinv (ks & Hnd & Hrecv & Hmem) Hstep.
  pose proof (inv_reporting _ _ _ _ Hinv) as Hreporting.
  destruct st as [c gs n rs]. simpl in *.
  destruct ev as [|k]; simpl in Hstep.
  - destruct c as [m|i|r]; [| |discriminate].
    + destruct (m <? workers)%Z; injection Hstep as <-;
        exists ks; repeat split; simpl; try assumption;
        try (rewrite has_reported_launch); apply Hmem.
    + destruct (i <? workers)%Z; [discriminate|]. injection Hstep as <-.
      now exists ks.
  - destruct (gs !! k) as [[| |e| |]|] eqn:Hk; try discriminate.
    + destruct (n <? capacity); [|discriminate]. injection Hstep as <-.
      exists ks. repeat split; simpl; try assumption;
        rewrite (has_reported_same gs k _ Acquiring Querying Hk eq_refl);
        apply Hmem.
    + injection Hstep as <-. exists ks. repeat split; simpl; try assumption;
        rewrite (has_reported_same gs k _ Querying (Reporting (task w k)) Hk eq_refl);
        apply Hmem.
    + destruct c as [m|i|r]; try discriminate.
      destruct (i <? workers)%Z; [|discriminate]. injection Hstep as <-.
      assert (Hfresh : k ∉ ks).
      { intros Hin%Hmem. unfold has_reported in Hin. rewrite Hk in Hin.
        discriminate. }
      exists (ks ++ [k]). simpl. split; [|split].
      * apply NoDup_app. repeat split; [assumption| |apply NoDup_singleton].
        intros k' Hk' ->%list_elem_of_singleton. contradiction.
      * rewrite fmap_snoc, Hrecv, (Hreporting k e Hk). reflexivity.
      * intros k'. rewrite (has_reported_insert gs k k' _ Releasing Hk).
        rewrite elem_of_app, list_elem_of_singleton, Hmem.
        destruct (decide (k' = k)) as [->|Hne]; simpl; [tauto|].
        split; [intros [?|?]; [assumption|contradiction]|tauto].
    + destruct n as [|n]; [discriminate|]. injection Hstep as <-.
      exists ks. repeat split; simpl; try assumption;
        rewrite (has_reported_same gs k _ Releasing Exited Hk eq_refl);
        apply Hmem.
Qed.

Lemma exec_reports_tied (sched : list event) :
  forall st st',
    invariant w workers capacity st -> reports_tied w st ->
    exec w workers capacity sched st = Some st' -> reports_tied w st'.
Proof.
  induction sched as [|ev sched IH]; intros st st' Hinv Htied Hexec;
    simpl in Hexec.
  - now injection Hexec as <-.
  - destruct (step w workers capacity ev st) as [st1|] eqn:Hstep; [|discriminate].
    apply (IH st1 st'); [| |assumption].
    + eapply step_invariant; eassumption.
    + eapply step_reports_tied; eassumption.
Qed.

Lemma reports_tied_init : reports_tied w init.
Proof.
  exists []. repeat split; [constructor| |discriminate].
  intros Hk. inversion Hk.
Qed.

(** In every state of a batch the values received are the results of
    distinct workers of the batch. *)
Lemma received_of_workers (sched : list event) (st : state) :
  exec w workers capacity sched init = Some st ->
  exists ks,
    NoDup ks /\ received st = task w <$> ks
    /\ Forall (fun k => k < Z.to_nat workers) ks
    /\ forall k, k ∈ ks <-> has_reported (goroutines st) k = true.
Proof.
  intros Hexec.
  pose proof (exec_invariant _ _ _ _ _ _ (invariant_init _ _ _) Hexec) as Hinv.
  destruct (exec_reports_tied _ _ _ (invariant_init _ _ _) reports_tied_init Hexec)
    as (ks & Hnd & Hrecv & Hmem).
  exists ks. repeat split; try assumption; try apply Hmem.
  apply Forall_forall. intros k Hk%Hmem. unfold has_reported in Hk.
  destruct (goroutines st !! k) as [g|] eqn:Hg; [|discriminate].
  apply lookup_lt_Some in Hg.
  destruct Hinv as [_ _ _ _ _ [Hlen Hview]].
  destruct (pc st) as [n|i|r]; [destruct Hview as [Hn _]| |]; lia.
Qed.

(** When every worker has reported, every task is among the reports. *)
Lemma all_reported (gs : list worker) (k : nat) :
  count reported gs = length gs -> k < length gs -> has_reported gs k = true.
Proof.
  unfold has_reported. revert k.
  induction gs as [|g gs IH]; intros k; simpl; [lia|].
  rewrite count_cons. pose proof (count_le_length reported gs).
  destruct (reported g) eqn:Hg; [|lia]. intros Hcount Hk.
  destruct k as [|k]; simpl; [assumption|]. apply IH; lia.
Qed.

End RunReports.

(** ** Claims about the load generator *)
Section LoadgenClaims.
Import Loadgen Fixtures.

Lemma count_in_flight_le (gs : list worker) :
  count in_flight gs <= count holds_permit gs.
Proof.
  induction gs as [|g gs IH]; [reflexivity|].
  rewrite !count_cons. destruct g; simpl; lia.
Qed.

(** C5: in every state that a batch can reach, the number of workers that
    hold a permit, and so the number of those that are inside their query,
    is at most the concurrency limit. *)
Theorem run_permits_bounded (w : world) (workers concurrency : Z)
    (sched : list event) (st : state) :
  (0 <= concurrency)%Z ->
  exec w workers (Z.to_nat concurrency) sched init = Some st ->
  (Z.of_nat (permits_held st) <= concurrency)%Z
  /\ (Z.of_nat (count in_flight (goroutines st)) <= concurrency)%Z
  /\ permits_held st = concCh st.
Proof.
  intros Hconc Hexec.
  pose proof (exec_invariant _ _ _ _ _ _ (invariant_init _ _ _) Hexec) as Hinv.
  destruct Hinv as [Hpermits Hcap _ _ _ _].
  pose proof (count_in_flight_le (goroutines st)).
  unfold permits_held. repeat split; lia.
Qed.

Lemma run_permits_bounded_witness :
  exec all_answer 20 5 sched_20_5 init = Some batch_20_5
  /\ permits_held batch_20_5 = 5
  /\ (Z.of_nat (permits_held batch_20_5) <= 5)%Z
  /\ (Z.of_nat (count in_flight (goroutines batch_20_5)) <= 5)%Z
  /\ permits_held batch_20_5 = concCh batch_20_5.
Proof.
  split; [reflexivity|]. split; [reflexivity|].
  apply (run_permits_bounded all_answer 20 5 sched_20_5 batch_20_5);
    [lia|reflexivity].
Defined.

(** C3 fails on the code: two workers, one permit, the first query fails.
    [run] returns that error; the second worker, which took the permit
    after the first had released it, stands at [respErrCh <- ...] with
    nobody left to receive, so that its deferred release never runs: the
    permit stays held and no goroutine can move any more. *)
Theorem run_leaks_permit :
  exists e st,
    exec first_fails 2 1
      [Caller; Caller; Caller; Worker 0; Worker 0; Worker 0; Worker 0;
       Worker 1; Worker 1] init = Some st
    /\ pc st = Returned (Some e)
    /\ goroutines st = [Exited; Reporting None]
    /\ permits_held st = 1 /\ concCh st = 1
    /\ stuck first_fails 2 1 st.
Proof.
  eexists _, _. split; [reflexivity|]. repeat split.
  intros [|[|[|k]]]; reflexivity.
Qed.

(** C4, as stated, fails: with two workers, when the query of the first
    fails while the second is still inside its query, [run] returns the
    error with one report received and the second worker unobserved. *)
Lemma run_returns_before_siblings_report :
  exists e,
    exec first_fails 2 2
      [Caller; Caller; Caller; Worker 0; Worker 1; Worker 0; Worker 0] init
    = Some {| pc := Returned (Some e); goroutines := [Releasing; Querying];
              concCh := 2; received := [Some e] |}
    /\ run first_fails 2 2
         [Caller; Caller; Caller; Worker 0; Worker 1; Worker 0; Worker 0]
       = Returns (Some e).
Proof.
  eexists. split; reflexivity.
Qed.

(** C4 (amended): in every state of a batch the values received on
    [respErrCh] are the results of the tasks of distinct workers, in the
    order of their reports. [run] returns nil only after it has received
    the report of each of the [workers] goroutines, and then every task
    has returned nil. When it returns an error, that error is the first
    non-nil report it received and the result of the task of one worker,
    the reports before it being the nil results of fewer than [workers]
    other workers: [run] returns it at once, without waiting for the
    goroutines that have not reported. So whenever [run] returns, it
    returns nil exactly when no task has failed. A batch takes at most
    [2 + 5 * workers] moves; with a concurrency limit of at least 1, a
    batch that can go no further has returned, and there is a schedule
    under which [run] returns. *)
Theorem run_returns_first_error (w : world) (workers concurrency : Z) :
  (forall sched st,
      exec w workers (Z.to_nat concurrency) sched init = Some st ->
      length sched <= 2 + 5 * Z.to_nat workers
      /\ (exists ks,
            NoDup ks /\ received st = task w <$> ks
            /\ Forall (fun k => k < Z.to_nat workers) ks)
      /\ (pc st = Returned None ->
          received st = replicate (Z.to_nat workers) None
          /\ count reported (goroutines st) = Z.to_nat workers
          /\ length (goroutines st) = Z.to_nat workers
          /\ forall k, k < Z.to_nat workers -> task w k = None)
      /\ (forall e, pc st = Returned (Some e) ->
          exists pre k ks,
            received st = pre ++ [Some e] /\ Forall (eq None) pre
            /\ length pre < Z.to_nat workers
            /\ k < Z.to_nat workers /\ task w k = Some e
            /\ pre = task w <$> ks /\ NoDup (ks ++ [k])
            /\ Forall (fun j => j < Z.to_nat workers) ks))
  /\ (forall sched r,
        run w workers concurrency sched = Returns r ->
        (r = None <-> forall k, k < Z.to_nat workers -> task w k = None))
  /\ ((1 <= concurrency)%Z ->
      (forall sched st,
          exec w workers (Z.to_nat concurrency) sched init = Some st ->
          stuck w workers (Z.to_nat concurrency) st ->
          exists r, pc st = Returned r)
      /\ exists sched r, run w workers concurrency sched = Returns r).
Proof.
  assert (Hstate : forall sched st,
      exec w workers (Z.to_nat concurrency) sched init = Some st ->
      length sched <= 2 + 5 * Z.to_nat workers
      /\ (exists ks,
            NoDup ks /\ received st = task w <$> ks
            /\ Forall (fun k => k < Z.to_nat workers) ks)
      /\ (pc st = Returned None ->
          received st = replicate (Z.to_nat workers) None
          /\ count reported (goroutines st) = Z.to_nat workers
          /\ length (goroutines st) = Z.to_nat workers
          /\ forall k, k < Z.to_nat workers -> task w k = None)
      /\ (forall e, pc st = Returned (Some e) ->
          exists pre k ks,
            received st = pre ++ [Some e] /\ Forall (eq None) pre
            /\ length pre < Z.to_nat workers
            /\ k < Z.to_nat workers /\ task w k = Some e
            /\ pre = task w <$> ks /\ NoDup (ks ++ [k])
            /\ Forall (fun j => j < Z.to_nat workers) ks)).
  { intros sched st Hexec.
    pose proof (exec_moves_left w workers _ _ _ _ Hexec) as Hmoves.
    pose proof (exec_invariant _ _ _ _ _ _ (invariant_init _ _ _) Hexec) as Hinv.
    destruct (received_of_workers _ _ _ _ _ Hexec)
      as (ks & Hnd & Hrecv & Hlt & Hmem).
    destruct Hinv as [_ _ Hreported _ _ [Hlen Hview]].
    split; [|split; [|split]].
    - unfold moves_left in Hmoves. simpl in Hmoves.
      rewrite Z.sub_0_r in Hmoves. lia.
    - now exists ks.
    - intros Hpc. rewrite Hpc in Hlen, Hview. destruct Hview as [Hn Hnone].
      repeat split; try lia.
      + replace (Z.to_nat workers) with (length (received st)) by lia.
        clear -Hnone. induction Hnone as [|r rs <- _ IH]; [reflexivity|].
        simpl. now rewrite <- IH.
      + intros k Hk.
        assert (Hin : k ∈ ks)
          by (apply Hmem, all_reported; lia).
        rewrite Forall_forall in Hnone. symmetry. apply Hnone.
        rewrite Hrecv. now apply list_elem_of_fmap_2.
    - intros e Hpc. rewrite Hpc in Hlen, Hview.
      destruct Hview as (pre & Hpre & Hnone & Hshort).
      rewrite Hpre in Hrecv. symmetry in Hrecv.
      apply fmap_app_inv in Hrecv as (ks1 & ks2 & Hpre1 & Hlast & ->).
      destruct ks2 as [|k [|? ?]]; try discriminate.
      injection Hlast as Hlast.
      apply Forall_app in Hlt as [Hlt1 Hlt2].
      apply Forall_cons in Hlt2 as [Hk _].
      exists pre, k, ks1. repeat split; try assumption; try lia.
      now symmetry. }
  split; [exact Hstate|]. split.
  - intros sched r. unfold run.
    destruct (concurrency <? 0)%Z; [discriminate|].
    destruct (exec w workers (Z.to_nat concurrency) sched init) as [st|] eqn:Hexec;
      [|discriminate].
    destruct (Hstate sched st Hexec) as (_ & _ & Hnil & Herr).
    destruct (pc st) as [n|i|[e|]]; try discriminate; intros [= <-].
    + destruct (Herr e eq_refl) as (pre & k & ks & _ & _ & _ & Hk & He & _).
      split; [discriminate|]. intros Hall. rewrite (Hall k Hk) in He.
      discriminate.
    + split; [|reflexivity]. intros _. apply (Hnil eq_refl).
  - intros Hconc. split.
    + intros sched st Hexec Hstuck.
      eapply stuck_returned; [|eapply exec_invariant; [apply invariant_init|]|];
        [|eassumption|eassumption]. lia.
    + destruct (drive_returns w workers (Z.to_nat concurrency) ltac:(lia)
                  (moves_left workers init) init (invariant_init _ _ _) (le_n _))
        as (st & r & Hexec & Hpc).
      exists (drive w workers (Z.to_nat concurrency) (moves_left workers init) init), r.
      unfold run. destruct (Z.ltb_spec concurrency 0); [lia|].
      now rewrite Hexec, Hpc.
Qed.

End LoadgenClaims.

(** ** The ticker loop of [main] and [runQuery] *)
Section MainClaims.
Import Loadgen Fixtures.

Lemma ticker_loop_unbounded (ticks : nat) :
  forall i rounds,
    snd (ticker_loop 0 ticks i rounds) = false
    /\ length (fst (ticker_loop 0 ticks i rounds)) = length rounds + ticks.
Proof.
  induction ticks as [|ticks IH]; intros i rounds; simpl.
  - split; [reflexivity|lia].
  - destruct (IH (wrap64 (i + 1)) (rounds ++ [i])) as [Hleft Hlen].
    split; [assumption|]. rewrite Hlen, length_app. simpl. lia.
Qed.

Lemma ticker_loop_bounded (R : Z) (ticks : nat) :
  (0 < R < 2 ^ 63 - 1)%Z ->
  forall i rounds,
    (0 <= i <= R + 1)%Z ->
    ((R + 2 - i <= Z.of_nat ticks)%Z ->
     ticker_loop R ticks i rounds = (rounds ++ seqZ i (R + 2 - i), true))
    /\ ((Z.of_nat ticks < R + 2 - i)%Z ->
        ticker_loop R ticks i rounds = (rounds ++ seqZ i (Z.of_nat ticks), false)).
Proof.
  intros HR. induction ticks as [|ticks IH]; intros i rounds Hi.
  - split; [lia|]. intros _. simpl. now rewrite app_nil_r.
  - simpl ticker_loop.
    destruct (Z.eqb_spec R 0) as [?|_]; [lia|]. simpl negb. simpl andb.
    destruct (Z.gtb_spec i R) as [Hgt|Hle].
    + split; [|lia]. intros _.
      replace (R + 2 - i)%Z with 1%Z by lia. reflexivity.
    + rewrite wrap64_small by lia.
      destruct (IH (i + 1)%Z (rounds ++ [i])) as [Hdone Hnot]; [lia|].
      split; intros Hticks.
      * rewrite Hdone by lia. rewrite <- app_assoc. simpl.
        rewrite (seqZ_cons i) by lia. repeat f_equal; lia.
      * rewrite Hnot by lia. rewrite <- app_assoc. simpl.
        rewrite (seqZ_cons i) by lia. repeat f_equal; lia.
Qed.

(** C8 fails on the code: with [numRounds = 0] the loop never ends, as
    claimed; but with [numRounds = R > 0] the loop is left only when
    [i > R], which is first the case in the round numbered [R + 1]: the
    rounds [0 .. R + 1] are run, [R + 2] batches and not [R]. For [R = 1]
    three batches are run. *)
Theorem main_runs_two_more_rounds :
  (forall ticks,
      snd (main 0 ticks) = false /\ length (fst (main 0 ticks)) = ticks)
  /\ (forall R ticks,
        (0 < R < 2 ^ 63 - 1)%Z -> (R + 2 <= Z.of_nat ticks)%Z ->
        main R ticks = (seqZ 0 (R + 2), true))
  /\ (forall R ticks,
        (0 < R < 2 ^ 63 - 1)%Z -> (Z.of_nat ticks < R + 2)%Z ->
        main R ticks = (seqZ 0 (Z.of_nat ticks), false))
  /\ main 1 3 = ([0; 1; 2]%Z, true).
Proof.
  repeat split.
  - apply ticker_loop_unbounded.
  - apply (ticker_loop_unbounded ticks 0%Z []).
  - intros R ticks HR Hticks. unfold main.
    destruct (ticker_loop_bounded R ticks HR 0%Z []) as [Hdone _]; [lia|].
    rewrite Hdone by lia. simpl. now rewrite Z.sub_0_r.
  - intros R ticks HR Hticks. unfold main.
    destruct (ticker_loop_bounded R ticks HR 0%Z []) as [_ Hnot]; [lia|].
    now rewrite Hnot by lia.
Qed.

(** C10: [runQuery] returns a non-nil error exactly when the request
    cannot be sent, the body cannot be read or the body cannot be decoded;
    the count then is -1. With a nil error the count is the [Matched]
    field of the struct that the body was decoded into. *)
Theorem runQuery_count_and_error (net : network) (q : string) :
  (forall n e, runQuery net q = (n, Some e) ->
      n = (-1)%Z
      /\ ((exists e', Get net (request_url net q) = inl e')
          \/ (exists resp e',
                 Get net (request_url net q) = inr resp
                 /\ ReadAll net resp = inl e')
          \/ (exists resp data r,
                 Get net (request_url net q) = inr resp
                 /\ ReadAll net resp = inr data
                 /\ Unmarshal net data {| Matched := 0 |} = (r, Some e))))
  /\ (forall n, runQuery net q = (n, None) ->
        exists resp data r,
          Get net (request_url net q) = inr resp
          /\ ReadAll net resp = inr data
          /\ Unmarshal net data {| Matched := 0 |} = (r, None)
          /\ n = Matched r).
Proof.
  unfold runQuery.
  destruct (Get net (request_url net q)) as [e1|resp] eqn:Hget.
  { split; [|discriminate]. intros n e [= <- _].
    split; [reflexivity|]. left. exists e1. reflexivity. }
  destruct (ReadAll net resp) as [e2|data] eqn:Hread.
  { split; [|discriminate]. intros n e [= <- _].
    split; [reflexivity|]. right. left. exists resp, e2. now split. }
  destruct (Unmarshal net data {| Matched := 0 |}) as [r [e3|]] eqn:Hjson.
  - split; [|discriminate]. intros n e [= <- <-]. split; [reflexivity|].
    right. right. exists resp, data, r. now repeat split.
  - split; [discriminate|]. intros n [= <-].
    exists resp, data, r. now repeat split.
Qed.

End MainClaims.

(** ** The models run on the scenarios of the specification *)
Section Scenarios.
Import Server Loadgen Fixtures.

Example Split_trailing_newline :
  Split ("a" +:+ newline +:+ "b" +:+ newline) "010"%char = ["a"; "b"; EmptyString].
Proof. reflexivity. Qed.

(** The documents arrive in the order in which the goroutines send. *)
Example readFiles_arrival_order :
  readFiles store_ab bucketName bucketPrefix [1; 0]
  = Returns (["par"; "A"], Some "unexpected EOF").
Proof. reflexivity. Qed.

(** A schedule that stops before every goroutine has sent leaves
    [readFiles] waiting. *)
Example readFiles_waits_for_all :
  readFiles store_ab bucketName bucketPrefix [1] = Blocked.
Proof. reflexivity. Qed.

(** A pattern with a backquote is quoted by [strconv.Quote] in the panic. *)
Example GetMatchCount_panic_quotes_pattern :
  @GetMatchCount literal store_love [0; 1; 2] {| Query := "A`(" |}
  = let dq := String "034"%char EmptyString in
    Panics ("regexp: Compile(" +:+ dq +:+ "a`(" +:+ dq
            +:+ "): error parsing regexp: `a`(`").
Proof. reflexivity. Qed.

Example GetMatchCount_retrieval_error :
  @GetMatchCount literal store_ab [0; 1] {| Query := "love" |}
  = Returns ({| MatchCount := 0 |}, Some "fails to read files: unexpected EOF").
Proof. reflexivity. Qed.

(** 20 workers under a limit of 5, every call succeeding: [run] returns
    nil after 101 moves. *)
Example run_20_5_succeeds :
  run all_answer 20 5 (drive all_answer 20 5 102 init) = Returns None
  /\ length (drive all_answer 20 5 102 init) = 101.
Proof. split; vm_compute; reflexivity. Qed.

(** Without a permit to give out no worker ever queries: [run] blocks. *)
Example run_without_permits_blocks :
  run all_answer 2 0 (drive all_answer 2 0 102 init) = Blocked
  /\ stuck all_answer 2 0
       {| pc := Receiving 0; goroutines := [Acquiring; Acquiring];
          concCh := 0; received := [] |}.
Proof.
  split; [reflexivity|]. intros [|[|[|k]]]; reflexivity.
Qed.

Example main_negative_rounds : main (-3) 5 = ([0%Z], true).
Proof. reflexivity. Qed.

Example runQuery_refused :
  runQuery refuses "love"
  = ((-1)%Z,
     Some "error sending request to http://localhost:8080?q=love: connection refused").
Proof. reflexivity. Qed.

End Scenarios.

(** * Further properties of the server *)

(** ** The listing loop of [readFiles] *)
Section ListingFacts.
Import Server Fixtures.

Lemma list_objects_error (names : list string) (e : error)
    (rest : list (error + string)) :
  forall paths, list_objects ((inr <$> names) ++ inl e :: rest) paths = inl e.
Proof.
  induction names as [|name names IH]; intros paths; [reflexivity|].
  simpl. apply IH.
Qed.

Lemma list_objects_named (it : list (error + string)) :
  forall paths,
    list_objects (filter (fun item => named item = true) it) paths
    = list_objects it paths.
Proof.
  induction it as [|[e|name] it IH]; intros paths; [reflexivity| |].
  - rewrite filter_cons_True by reflexivity. reflexivity.
  - destruct (String.eqb name EmptyString) eqn:Hname.
    + rewrite filter_cons_False by (simpl; rewrite Hname; discriminate).
      simpl. rewrite Hname. apply IH.
    + rewrite filter_cons_True by (simpl; now rewrite Hname).
      simpl. rewrite Hname. apply IH.
Qed.

(** X1: when the listing breaks, [readFiles] returns the empty slice and
    the error of the listing, wrapped, whatever names came before the
    error, whatever the schedule and whatever the objects hold: nothing is
    fetched. *)
Theorem readFiles_listing_error (st : storage) (names : list string)
    (e : error) (rest : list (error + string)) (order : list nat) :
  NewClient st = None ->
  Objects st = (inr <$> names) ++ inl e :: rest ->
  readFiles st bucketName bucketPrefix order
  = Returns ([], Some (Errorf
      "failed to iterate over files in dataflow-samples starting with shakespeare/: "
      e)).
Proof.
  intros Hclient Hobjects. unfold readFiles.
  rewrite Hclient, Hobjects, list_objects_error. reflexivity.
Qed.

Lemma readFiles_listing_error_witness :
  readFiles store_listing_breaks bucketName bucketPrefix [0]
  = Returns ([], Some
      "failed to iterate over files in dataflow-samples starting with shakespeare/: context deadline exceeded").
Proof.
  apply (readFiles_listing_error store_listing_breaks ["a"]
           "context deadline exceeded" [inr "b"] [0]); reflexivity.
Defined.

(** X2: objects whose name is empty are not fetched: [readFiles] does the
    same over a listing and over that listing without its entries of
    empty name. *)
Theorem readFiles_skips_unnamed (st : storage) (order : list nat) :
  readFiles
    (with_objects st (filter (fun item => named item = true) (Objects st)))
    bucketName bucketPrefix order
  = readFiles st bucketName bucketPrefix order.
Proof.
  unfold readFiles, with_objects. simpl.
  now rewrite list_objects_named.
Qed.

End ListingFacts.

(** ** What [readFiles] returns, and in which order *)
Section ArrivalFacts.
Import Server Fixtures.

Lemma last_error_last (rs rs' : list resp) (r : resp) (err0 : option error) :
  Forall (fun r' => err r' = None) rs' ->
  is_Some (err r) ->
  last_error (rs ++ r :: rs') err0 = err r.
Proof.
  intros Hnone [e He]. unfold last_error.
  rewrite fold_left_app. simpl. rewrite He.
  apply eq_trans with (last_error rs' (Some e)); [reflexivity|].
  clear He. induction Hnone as [|r' rs' Hr' _ IH]; [reflexivity|].
  change (last_error (r' :: rs') (Some e))
    with (last_error rs' (match err r' with Some e' => Some e' | None => Some e end)).
  now rewrite Hr'.
Qed.

Lemma fetch_tasks_lookup (st : storage) (paths : list string) (k : nat) :
  k < length paths ->
  (exists data e, fetch_at st paths k = ReadAllReturns data e) ->
  ((fun path => fetch_task (Object st path)) <$> paths) !! k
  = Some [Send (answer (fetch_at st paths k))].
Proof.
  intros Hk (data & e & Hfetch). unfold fetch_at in *.
  destruct (lookup_lt_is_Some_2 paths k Hk) as [path Hpath].
  rewrite list_lookup_fmap, Hpath in *. simpl in *. now rewrite Hfetch.
Qed.

(** X3: when every fetch gets as far as reading, a schedule that lets
    each goroutine send once makes [readFiles] return the strings in the
    order in which the goroutines sent, not in listing order, and the
    error of the last failed fetch to arrive: a later failure replaces an
    earlier one. *)
Theorem readFiles_in_arrival_order (st : storage) (paths : list string)
    (order : list nat) :
  NewClient st = None ->
  list_objects (Objects st) [] = inr paths ->
  Forall (fun path => exists data e, Object st path = ReadAllReturns data e) paths ->
  order ≡ₚ seq 0 (length paths) ->
  readFiles st bucketName bucketPrefix order
  = Returns ((fun k => slot (fetch_at st paths k)) <$> order,
             last_error ((fun k => answer (fetch_at st paths k)) <$> order) None)
  /\ (forall before k after,
        order = before ++ k :: after ->
        is_Some (failure (fetch_at st paths k)) ->
        Forall (fun j => failure (fetch_at st paths j) = None) after ->
        exists texts,
          readFiles st bucketName bucketPrefix order
          = Returns (texts, failure (fetch_at st paths k))).
Proof.
  intros Hclient Hlist Hread Horder.
  assert (Hrun : readFiles st bucketName bucketPrefix order
    = Returns ((fun k => slot (fetch_at st paths k)) <$> order,
               last_error ((fun k => answer (fetch_at st paths k)) <$> order) None)).
  { unfold readFiles. rewrite Hclient, Hlist.
    rewrite (receive_complete (fun k => answer (fetch_at st paths k))).
    - rewrite take_0. reflexivity.
    - rewrite Horder. apply NoDup_seq.
    - intros k Hk. rewrite Horder in Hk. apply elem_of_seq in Hk.
      apply fetch_tasks_lookup; [lia|]. unfold fetch_at.
      destruct (lookup_lt_is_Some_2 paths k) as [path Hpath]; [lia|].
      rewrite Hpath. simpl. apply (Forall_lookup_1 _ _ _ _ Hread Hpath).
    - rewrite Horder, length_seq. reflexivity.
    - apply length_replicate. }
  split; [exact Hrun|].
  intros before k after -> Hfail Hafter.
  eexists. rewrite Hrun. f_equal. f_equal.
  rewrite fmap_app, fmap_cons.
  apply (last_error_last _ _ (answer (fetch_at st paths k))); [|exact Hfail].
  apply Forall_fmap. exact Hafter.
Qed.

Lemma readFiles_in_arrival_order_witness :
  readFiles store_ab bucketName bucketPrefix [1; 0]
  = Returns (["par"; "A"], Some "unexpected EOF")
  /\ (forall before k after,
        [1; 0] = before ++ k :: after ->
        is_Some (failure (fetch_at store_ab ["a"; "b"] k)) ->
        Forall (fun j => failure (fetch_at store_ab ["a"; "b"] j) = None) after ->
        exists texts,
          readFiles store_ab bucketName bucketPrefix [1; 0]
          = Returns (texts, failure (fetch_at store_ab ["a"; "b"] k))).
Proof.
  apply (readFiles_in_arrival_order store_ab ["a"; "b"] [1; 0]).
  - reflexivity.
  - reflexivity.
  - repeat constructor; eexists _, _; reflexivity.
  - apply Permutation_swap.
Defined.

Lemma fetched_cons (st : storage) (path : string) (paths : list string) :
  fetched st (path :: paths)
  = match Object st path with
    | ReadAllReturns data None => data :: fetched st paths
    | _ => fetched st paths
    end.
Proof.
  unfold fetched. simpl. now destruct (Object st path) as [e|data [e|]].
Qed.

Lemma fetched_all (st : storage) (paths : list string) :
  Forall (fun path => failure (Object st path) = None) paths ->
  fetched st paths = (fun path => slot (Object st path)) <$> paths
  /\ Forall (fun path => exists data, Object st path = ReadAllReturns data None) paths.
Proof.
  induction 1 as [|path paths Hpath _ [IH1 IH2]].
  - split; [reflexivity|constructor].
  - rewrite fetched_cons, fmap_cons.
    destruct (Object st path) as [e|data [e|]] eqn:Hobj; try discriminate.
    simpl. rewrite IH1. split; [reflexivity|].
    constructor; [now exists data|assumption].
Qed.

(** X4: [readFiles] returns a nil error only when every listed object was
    fetched without error, and the slice then holds the content of each
    listed object once: no failure goes unreported, no document is left
    out or repeated. *)
Theorem readFiles_nil_error_all_fetched (st : storage) (order : list nat)
    (texts : list string) :
  readFiles st bucketName bucketPrefix order = Returns (texts, None) ->
  exists paths,
    list_objects (Objects st) [] = inr paths
    /\ Forall (fun path => exists data, Object st path = ReadAllReturns data None) paths
    /\ texts ≡ₚ fetched st paths
    /\ length texts = length paths.
Proof.
  intros Hrun. unfold readFiles in Hrun.
  destruct (NewClient st) eqn:Hclient; [discriminate|].
  destruct (list_objects (Objects st) []) as [e|paths] eqn:Hlist; [discriminate|].
  assert (Hrun' : readFiles st bucketName bucketPrefix order = Returns (texts, None))
    by (unfold readFiles; now rewrite Hclient, Hlist).
  destruct (readFiles_arrivals st paths order texts None Hclient Hlist Hrun')
    as (rs & Hrs & -> & Herr).
  symmetry in Herr. apply last_error_None in Herr as [_ Hnone].
  rewrite Hrs, Forall_fmap in Hnone.
  destruct (fetched_all st paths Hnone) as [Hfetched Hall].
  exists paths. repeat split; try assumption.
  - rewrite Hfetched, Hrs, <- list_fmap_compose. reflexivity.
  - rewrite Hrs. now rewrite !length_fmap.
Qed.

Lemma readFiles_nil_error_all_fetched_witness :
  exists paths,
    list_objects (Objects store_love) [] = inr paths
    /\ Forall (fun path => exists data, Object store_love path = ReadAllReturns data None)
              paths
    /\ ["Exeunt" +:+ newline;
        "Love is not love" +:+ newline +:+ "Which alters" +:+ newline +:+ "O no! my LOVE";
        "Sigh no more" +:+ newline +:+ "lovers all"]
       ≡ₚ fetched store_love paths
    /\ 3 = length paths.
Proof.
  apply (readFiles_nil_error_all_fetched store_love [2; 0; 1]). reflexivity.
Defined.

End ArrivalFacts.

(** ** Bounds on the count *)
Section CountBounds.
Import Server Fixtures.
Context `{Library}.

Lemma Split_newlines (text : string) :
  length (Split text "010"%char) = S (newlines text).
Proof.
  induction text as [|c text IH]; [reflexivity|].
  simpl. destruct (Ascii.eqb c "010"%char); simpl.
  - now rewrite IH.
  - destruct (Split text "010"%char) as [|piece pieces]; [discriminate|].
    simpl in *. lia.
Qed.

Lemma matching_lines_le (re : Regexp) (text : string) :
  matching_lines re text <= S (newlines text).
Proof.
  unfold matching_lines. rewrite <- Split_newlines. apply length_filter.
Qed.

Lemma spec_count_le (re : Regexp) (texts : list string) :
  spec_count re texts <= length texts + sum_list_with newlines texts.
Proof.
  unfold spec_count. induction texts as [|text texts IH]; [reflexivity|].
  simpl. pose proof (matching_lines_le re text). lia.
Qed.

(** X5: a count returned without error is never negative and never more
    than the number of lines of the corpus, which is the number of its
    documents plus the number of its newline bytes (an empty document is
    one line), as long as that number fits an [int64]. *)
Theorem GetMatchCount_bounded (st : storage) (order : list nat) (q : string)
    (texts : list string) (resp : ShakespeareResponse) (e : option error) :
  readFiles st bucketName bucketPrefix order = Returns (texts, None) ->
  (Z.of_nat (length texts + sum_list_with newlines texts) < 2 ^ 63)%Z ->
  GetMatchCount st order {| Query := q |} = Returns (resp, e) ->
  e = None
  /\ (0 <= MatchCount resp
      <= Z.of_nat (length texts + sum_list_with newlines texts))%Z.
Proof.
  intros Hrun Hsmall. unfold GetMatchCount. rewrite Hrun. simpl.
  destruct (Compile (ToLower q)) as [e'|re]; [discriminate|].
  intros [= <- <-]. split; [reflexivity|]. simpl.
  pose proof (spec_count_le re texts).
  rewrite count_texts_increments, increments_small by lia. lia.
Qed.

End CountBounds.

Section CountBoundsRuns.
Import Server Fixtures.

Lemma GetMatchCount_bounded_witness :
  @GetMatchCount literal store_love [0; 1; 2] {| Query := "love" |}
  = Returns ({| MatchCount := 3 |}, None)
  /\ (None : option error) = None
  /\ (0 <= 3 <= Z.of_nat (3 + 4))%Z.
Proof.
  split; [reflexivity|].
  refine (@GetMatchCount_bounded literal store_love [0; 1; 2] "love"
            ["Love is not love" +:+ newline +:+ "Which alters" +:+ newline
             +:+ "O no! my LOVE";
             "Sigh no more" +:+ newline +:+ "lovers all";
             "Exeunt" +:+ newline]
            {| MatchCount := 3 |} None _ _ _); reflexivity.
Defined.

End CountBoundsRuns.

(** ** [readFiles] waits for every goroutine *)
Section WaitFacts.
Import Server Fixtures.

Lemma receive_rounds (order : list nat) :
  forall tasks n i ret err0 r,
    receive order tasks n i ret err0 = Returns r -> n - i <= length order.
Proof.
  induction order as [|k order IH]; intros tasks n i ret err0 r Hrun;
    simpl in Hrun; destruct (Nat.leb_spec n i) as [Hle|Hlt];
    try (simpl; lia); try discriminate.
  destruct (tasks !! k) as [[|[m|] rest]|]; try discriminate.
  apply IH in Hrun. simpl. lia.
Qed.

(** X12: unlike [run], [readFiles] never returns early: once the listing
    has given [n] objects it returns only after [n] messages have been
    received, also when the first of them carries an error. *)
Theorem readFiles_waits_for_every_message (st : storage) (paths : list string)
    (order : list nat) (r : list string * option error) :
  NewClient st = None ->
  list_objects (Objects st) [] = inr paths ->
  readFiles st bucketName bucketPrefix order = Returns r ->
  length paths <= length order.
Proof.
  intros Hclient Hlist. unfold readFiles. rewrite Hclient, Hlist.
  intros Hrun%receive_rounds. lia.
Qed.

Lemma readFiles_waits_for_every_message_witness :
  length ["a"; "b"] <= length [1; 0].
Proof.
  apply (readFiles_waits_for_every_message store_ab ["a"; "b"] [1; 0]
           (["par"; "A"], Some "unexpected EOF")); reflexivity.
Defined.

End WaitFacts.

(** * Further properties of the load generator *)

(** ** Batches at the edges of their parameters *)
Section RunEdges.
Import Loadgen Fixtures.

(** With a channel of capacity 0 no worker gets past [concCh <- true]. *)
Lemma exec_without_permits (w : world) (workers : Z) (sched : list event) :
  (1 <= workers)%Z ->
  forall st st',
    Forall (eq Acquiring) (goroutines st) -> concCh st = 0 -> received st = [] ->
    (exists n, pc st = Launching n) \/ pc st = Receiving 0 ->
    exec w workers 0 sched st = Some st' ->
    Forall (eq Acquiring) (goroutines st') /\ concCh st' = 0 /\ received st' = []
    /\ ((exists n, pc st' = Launching n) \/ pc st' = Receiving 0).
Proof.
  intros Hworkers. induction sched as [|ev sched IH];
    intros st st' Hgs Hconc Hrecv Hpc Hexec; simpl in Hexec.
  - injection Hexec as <-. repeat split; assumption.
  - destruct (step w workers 0 ev st) as [st1|] eqn:Hstep; [|discriminate].
    apply (IH st1 st'); try assumption; clear IH Hexec;
      destruct st as [c gs n rs]; simpl in *; subst n rs;
      destruct ev as [|k]; simpl in Hstep.
    all: try (destruct Hpc as [[m ->] | ->];
              [destruct (m <? workers)%Z; injection Hstep as <-; simpl
              |destruct (Z.ltb_spec 0 workers); [discriminate|lia]]).
    all: try (destruct (gs !! k) as [g|] eqn:Hk; [|discriminate];
              rewrite <- (Forall_lookup_1 _ _ _ _ Hgs Hk) in Hstep;
              discriminate).
    all: try reflexivity; try assumption; eauto.
    apply Forall_app. split; [assumption|repeat constructor].
Qed.

(** X6: a concurrency limit of 0 makes every batch of at least one worker
    hang: whatever the schedule, [run] does not return, no worker gets a
    permit and no query is sent. *)
Theorem run_blocks_without_permits (w : world) (workers : Z) (sched : list event) :
  (1 <= workers)%Z ->
  run w workers 0 sched = Blocked
  /\ (forall st, exec w workers 0 sched init = Some st ->
        Forall (eq Acquiring) (goroutines st) /\ received st = []).
Proof.
  intros Hworkers.
  assert (Hrest : forall st, exec w workers 0 sched init = Some st ->
            Forall (eq Acquiring) (goroutines st) /\ concCh st = 0
            /\ received st = []
            /\ ((exists n, pc st = Launching n) \/ pc st = Receiving 0)).
  { intros st. apply (exec_without_permits w workers sched Hworkers init);
      simpl; try reflexivity; [constructor|left; now exists 0%Z]. }
  split.
  - unfold run. change (Z.to_nat 0) with 0. simpl.
    destruct (exec w workers 0 sched init) as [st|] eqn:Hexec; [|reflexivity].
    destruct (Hrest st eq_refl) as (_ & _ & _ & [[n ->] | ->]); reflexivity.
  - intros st Hexec. destruct (Hrest st Hexec) as (Hgs & _ & Hrecv & _).
    now split.
Qed.

Lemma run_blocks_without_permits_witness :
  run all_answer 2 0 [Caller; Caller; Caller] = Blocked
  /\ (forall st, exec all_answer 2 0 [Caller; Caller; Caller] init = Some st ->
        Forall (eq Acquiring) (goroutines st) /\ received st = []).
Proof.
  apply (run_blocks_without_permits all_answer 2 [Caller; Caller; Caller]). lia.
Defined.

(** X7: a batch of no workers (a count of zero or less) starts no
    goroutine and [run] returns nil, after two moves of the caller and
    under every schedule under which it returns. *)
Theorem run_no_workers (w : world) (workers concurrency : Z) :
  (workers <= 0)%Z -> (0 <= concurrency)%Z ->
  run w workers concurrency [Caller; Caller] = Returns None
  /\ (forall sched st,
        exec w workers (Z.to_nat concurrency) sched init = Some st ->
        goroutines st = [])
  /\ (forall sched r, run w workers concurrency sched = Returns r -> r = None).
Proof.
  intros Hworkers Hconc.
  assert (Hnone : forall sched st,
            exec w workers (Z.to_nat concurrency) sched init = Some st ->
            goroutines st = [] /\ forall e, pc st <> Returned (Some e)).
  { intros sched st Hexec.
    pose proof (exec_invariant _ _ _ _ _ _ (invariant_init _ _ _) Hexec) as Hinv.
    destruct Hinv as [_ _ _ _ _ [Hlen Hview]].
    destruct (pc st) as [n|i|[e|]]; split; try discriminate;
      try (apply length_zero_iff_nil; lia).
    destruct Hview as (pre & _ & _ & Hlt). lia. }
  split; [|split].
  - unfold run. destruct (Z.ltb_spec concurrency 0); [lia|]. simpl.
    destruct (Z.ltb_spec 0 workers); [lia|]. simpl.
    destruct (Z.ltb_spec 0 workers); [lia|]. reflexivity.
  - intros sched st Hexec. apply (Hnone sched st Hexec).
  - intros sched r. unfold run.
    destruct (concurrency <? 0)%Z; [discriminate|].
    destruct (exec w workers (Z.to_nat concurrency) sched init) as [st|] eqn:Hexec;
      [|discriminate].
    destruct (Hnone sched st Hexec) as [_ Hpc].
    destruct (pc st) as [n|i|[e|]]; try discriminate.
    + now destruct (Hpc e).
    + now intros [= <-].
Qed.

Lemma run_no_workers_witness :
  run first_fails 0 5 [Caller; Caller] = Returns None
  /\ (forall sched st,
        exec first_fails 0 (Z.to_nat 5) sched init = Some st ->
        goroutines st = [])
  /\ (forall sched r, run first_fails 0 5 sched = Returns r -> r = None).
Proof.
  apply (run_no_workers first_fails 0 5); lia.
Defined.

End RunEdges.

(** ** Where a batch comes to rest *)
Section RunRest.
Import Loadgen Fixtures.

Lemma count_partition (gs : list worker) :
  Forall (fun g => exited g || acquiring g || reporting g = true) gs ->
  count exited gs + count reporting gs + count acquiring gs = length gs
  /\ count reported gs = count exited gs
  /\ count holds_permit gs = count reporting gs.
Proof.
  induction 1 as [|g gs Hg _ (IH1 & IH2 & IH3)]; [repeat split|].
  rewrite !count_cons. destruct g; simpl in *; try discriminate;
    repeat split; lia.
Qed.

(** X8: when [run] has returned an error and the batch has come to rest,
    every worker has either exited, or stands for ever at its send on
    [respErrCh] with its permit, or stands for ever at [concCh <- true].
    Exactly the workers whose report [run] received have exited: the
    other [workers - len(received)] goroutines never end; and if one of
    them still waits for a permit, all the permits are held by the
    others. *)
Theorem run_error_leaves_goroutines (w : world) (workers : Z) (capacity : nat)
    (sched : list event) (st : state) (e : error) :
  exec w workers capacity sched init = Some st ->
  stuck w workers capacity st ->
  pc st = Returned (Some e) ->
  Forall (fun g => exited g || acquiring g || reporting g = true) (goroutines st)
  /\ count exited (goroutines st) = length (received st)
  /\ count reporting (goroutines st) = concCh st
  /\ count exited (goroutines st) + count reporting (goroutines st)
     + count acquiring (goroutines st) = Z.to_nat workers
  /\ (1 <= count acquiring (goroutines st) -> concCh st = capacity).
Proof.
  intros Hexec Hstuck Hpc.
  pose proof (exec_invariant _ _ _ _ _ _ (invariant_init _ _ _) Hexec) as Hinv.
  destruct Hinv as [Hpermits Hcap Hreported _ _ [Hlen Hview]].
  rewrite Hpc in Hlen, Hview.
  assert (Hforms : Forall (fun g => exited g || acquiring g || reporting g = true)
                     (goroutines st)).
  { apply Forall_lookup. intros k g Hk.
    specialize (Hstuck (Worker k)). simpl in Hstuck. rewrite Hk in Hstuck.
    destruct g; try reflexivity; [discriminate|].
    pose proof (count_lookup holds_permit _ k _ Hk eq_refl).
    destruct (concCh st); [lia|discriminate]. }
  destruct (count_partition _ Hforms) as (Hsum & Hrep & Hheld).
  repeat split; try assumption; try lia.
  intros Hacq.
  destruct (list_find (fun g => acquiring g = true) (goroutines st))
    as [[k g]|] eqn:Hfind.
  - apply list_find_Some in Hfind as (Hk & Hg & _).
    specialize (Hstuck (Worker k)). simpl in Hstuck. rewrite Hk in Hstuck.
    destruct g; try discriminate.
    destruct (Nat.ltb_spec (concCh st) capacity); [discriminate|lia].
  - apply list_find_None in Hfind.
    rewrite (count_none acquiring _ Hfind) in Hacq. lia.
Qed.

Lemma run_error_leaves_goroutines_witness :
  exec first_fails 2 1 sched_leak init = Some rest_leak
  /\ Forall (fun g => exited g || acquiring g || reporting g = true)
            (goroutines rest_leak)
  /\ count exited (goroutines rest_leak) = length (received rest_leak)
  /\ count reporting (goroutines rest_leak) = concCh rest_leak
  /\ count exited (goroutines rest_leak) + count reporting (goroutines rest_leak)
     + count acquiring (goroutines rest_leak) = Z.to_nat 2
  /\ (1 <= count acquiring (goroutines rest_leak) -> concCh rest_leak = 1).
Proof.
  split; [reflexivity|].
  apply (run_error_leaves_goroutines first_fails 2 1 sched_leak rest_leak
           "error sending request to http://localhost:8080?q=love: connection refused").
  - reflexivity.
  - intros [|[|[|k]]]; reflexivity.
  - reflexivity.
Defined.

Lemma run_nil_releases_all_witness :
  exec all_answer 2 1 sched_2_1 init = Some rest_2_1
  /\ Forall (eq Exited) (goroutines rest_2_1) /\ concCh rest_2_1 = 0.
Proof.
  split; [reflexivity|].
  apply (run_nil_releases_all all_answer 2 1 (le_n 1) sched_2_1 rest_2_1).
  - reflexivity.
  - intros [|[|[|k]]]; reflexivity.
  - reflexivity.
Defined.

End RunRest.

(** ** What makes a batch fail *)
Section RunErrors.
Import Loadgen Fixtures.

(** The result of a worker is the error of its [runQuery]: what [check]
    finds does not enter it. *)
Lemma task_runQuery (w : world) (k : nat) :
  task w k = snd (runQuery (net_of w k) (query_string (drawn w k))).
Proof.
  unfold task, drawn.
  now destruct (runQuery (net_of w k) _) as [matched [e|]].
Qed.

(** X9: a count that differs from the expected one never fails a batch:
    when the [runQuery] of every worker returns a nil error, whatever the
    counts, [run] returns nil under every schedule under which it
    returns. *)
Theorem run_ignores_mismatches (w : world) (workers concurrency : Z) :
  (forall k, snd (runQuery (net_of w k) (query_string (drawn w k))) = None) ->
  forall sched r, run w workers concurrency sched = Returns r -> r = None.
Proof.
  intros Hquery sched r. unfold run.
  destruct (concurrency <? 0)%Z; [discriminate|].
  destruct (exec w workers (Z.to_nat concurrency) sched init) as [st|] eqn:Hexec;
    [|discriminate].
  pose proof (exec_invariant _ _ _ _ _ _ (invariant_init _ _ _) Hexec) as Hinv.
  destruct Hinv as [_ _ _ _ Hreceived [_ Hview]].
  destruct (pc st) as [n|i|[e|]]; try discriminate; [|now intros [= <-]].
  destruct Hview as (pre & Hpre & _ & _). rewrite Hpre in Hreceived.
  apply Forall_app in Hreceived as [_ Hlast].
  apply Forall_cons in Hlast as [(k & _ & He) _].
  rewrite task_runQuery, Hquery in He. discriminate.
Qed.

Lemma run_ignores_mismatches_witness :
  check (drawn all_answer 1) 3040 = true
  /\ forall sched r, run all_answer 20 5 sched = Returns r -> r = None.
Proof.
  split; [reflexivity|].
  apply (run_ignores_mismatches all_answer 20 5).
  intros k. reflexivity.
Defined.

End RunErrors.

(** ** The ticker loop at the ends of the range of [numRounds] *)
Section MainBounds.
Import Loadgen.

Lemma wrap64_range (z : Z) : (- 2 ^ 63 <= wrap64 z < 2 ^ 63)%Z.
Proof.
  unfold wrap64.
  pose proof (Z.mod_pos_bound (z + 2 ^ 63) (2 ^ 64) ltac:(lia)). lia.
Qed.

Lemma ticker_loop_max (R : Z) (ticks : nat) :
  (2 ^ 63 - 1 <= R)%Z ->
  forall i rounds,
    (i < 2 ^ 63)%Z ->
    snd (ticker_loop R ticks i rounds) = false
    /\ length (fst (ticker_loop R ticks i rounds)) = length rounds + ticks.
Proof.
  intros HR. induction ticks as [|ticks IH]; intros i rounds Hi.
  - simpl. split; [reflexivity|lia].
  - simpl ticker_loop.
    destruct (Z.gtb_spec i R) as [Hgt|_]; [lia|].
    rewrite andb_false_r.
    destruct (IH (wrap64 (i + 1)) (rounds ++ [i])) as [Hleft Hlen];
      [apply wrap64_range|].
    split; [assumption|]. rewrite Hlen, length_app. simpl. lia.
Qed.

(** X10: outside the range that the exit test was written for: a negative
    [numRounds] ends the loop after the first batch, since [i > numRounds]
    holds at once; and [numRounds] = 2^63 - 1 never ends it, since no
    [int] is greater. *)
Theorem main_rounds_at_the_bounds :
  (forall R ticks, (R < 0)%Z -> main R (S ticks) = ([0%Z], true))
  /\ (forall ticks,
        snd (main (2 ^ 63 - 1) ticks) = false
        /\ length (fst (main (2 ^ 63 - 1) ticks)) = ticks).
Proof.
  split.
  - intros R ticks HR. unfold main. simpl.
    destruct (Z.eqb_spec R 0); [lia|].
    destruct (Z.gtb_spec 0 R); [reflexivity|lia].
  - intros ticks. apply (ticker_loop_max (2 ^ 63 - 1) ticks); lia.
Qed.

End MainBounds.
